(** * StoragePlus: expiring, namespaced entries over a Web Storage handle

    A shallow embedding of the class [StoragePlus] (in [src/src/factory.ts],
    with the types it is declared over) and of the platform pieces it calls: the [Storage] handle, [JSON.stringify],
    [JSON.parse], [Date.now] and [console.warn].

    Conventions of the embedding:
    - JavaScript strings are [string]; a character stands for one code
      unit, so [String.length] is the [.length] of the source.  Code units
      are the 256 of [ascii].
    - Payloads range over JSON data ([json]): what [JSON.stringify] keeps
      and [JSON.parse] gives back ([undefined], functions and the like are
      no payloads).  Numbers are integers ([Z]), which is what timestamps
      and millisecond durations are, taken in the range where JavaScript
      numbers are exact; a number written with a fraction or an exponent
      has no value here and [JSON.parse] refuses it.
    - [Date.now()] is the parameter [now] of every operation: one operation
      runs at one instant.
    - The handle [this.storage] is an object that the operations mutate; its
      state is passed to every operation and returned by it, and what was
      written before an exception stays written.
    - [console.warn] appends to a list of [warning]s returned next to the
      result, so the diagnostic channel is visible in the statements.
    - An exception is a value of [exn]; [try]/[catch] is a [match] on
      [result]. *)

From Stdlib Require Import String Ascii ZArith NArith List Bool Lia.
From Stdlib Require Import DecimalString.
From Stdlib Require DecimalPos DecimalFacts.
Import ListNotations.

#[local] Open Scope string_scope.
#[local] Open Scope list_scope.
#[local] Open Scope Z_scope.

(** ** Exceptions *)

Inductive exn : Type :=
| DOMException (name : string)
| SyntaxError
| TypeError.

Inductive result (A : Type) : Type :=
| Ok (a : A)
| Throw (e : exn).
Arguments Ok {A} a.
Arguments Throw {A} e.

(** ** Strings *)

Definition dquote : ascii := "034"%char.

(** [s.substring(n)]: the string without its first [n] code units. *)
Fixpoint string_drop (n : nat) (s : string) : string :=
  match n, s with
  | O, _ => s
  | S n', String _ r => string_drop n' r
  | S _, EmptyString => EmptyString
  end.

(** [s.startsWith(p)] *)
Fixpoint startsWith (s p : string) {struct p} : bool :=
  match p with
  | EmptyString => true
  | String a p' =>
      match s with
      | String b s' => Ascii.eqb a b && startsWith s' p'
      | EmptyString => false
      end
  end.

(** ** JSON data *)

(** The numbers are the integers and the strings are of 8-bit characters:
    [JNum n] is a number of the engine when [n] is a double, as every
    safe integer is.  An object keeps its members as they are written;
    [get_prop] below reads the last of several members of one name, which
    is the one the parsed object holds. *)

#[local] Unset Elimination Schemes.
Inductive json : Type :=
| JNull
| JBool (b : bool)
| JNum (n : Z)
| JStr (s : string)
| JArr (l : list json)
| JObj (m : list (string * json)).
#[local] Set Elimination Schemes.

Module JSON.

(** *** JSON.stringify *)

Definition hex_digit (n : N) : ascii :=
  ascii_of_N (if (n <? 10)%N then 48 + n else 87 + n)%N.

(** QuoteJSONString: the two-character escapes, [\u00xx] for the other
    control characters, every other code unit as it is. *)
Definition escape_char (c : ascii) : string :=
  let n := N_of_ascii c in
  if (n =? 34)%N then String "\" (String dquote "")
  else if (n =? 92)%N then "\\"
  else if (n =? 8)%N then "\b"
  else if (n =? 12)%N then "\f"
  else if (n =? 10)%N then "\n"
  else if (n =? 13)%N then "\r"
  else if (n =? 9)%N then "\t"
  else if (n <? 32)%N
       then "\u00" ++ String (hex_digit (n / 16)) (String (hex_digit (n mod 16)) "")
  else String c "".

Fixpoint escape (s : string) : string :=
  match s with
  | EmptyString => ""
  | String c r => escape_char c ++ escape r
  end.

Definition quote (s : string) : string :=
  String dquote (escape s ++ String dquote "").

Definition print_pos (p : positive) : string :=
  NilEmpty.string_of_uint (Pos.to_uint p).

Definition print_Z (z : Z) : string :=
  match z with
  | Z0 => "0"
  | Zpos p => print_pos p
  | Zneg p => String "-" (print_pos p)
  end.

(** Compact output, members in their order, as [JSON.stringify] with one
    argument prints. *)
Fixpoint stringify (j : json) : string :=
  match j with
  | JNull => "null"
  | JBool true => "true"
  | JBool false => "false"
  | JNum n => print_Z n
  | JStr s => quote s
  | JArr l =>
      match l with
      | [] => "[]"
      | x :: r =>
          String "[" (stringify x ++
            (fix tail (l : list json) : string :=
               match l with
               | [] => "]"
               | y :: r' => String "," (stringify y ++ tail r')
               end) r)
      end
  | JObj m =>
      match m with
      | [] => "{}"
      | (k, x) :: r =>
          String "{" (quote k ++ String ":" (stringify x ++
            (fix tail (m : list (string * json)) : string :=
               match m with
               | [] => "}"
               | (k', y) :: r' =>
                   String "," (quote k' ++ String ":" (stringify y ++ tail r'))
               end) r))
      end
  end.

(** The two inner loops of [stringify], by name. *)
Definition array_tail : list json -> string :=
  fix tail (l : list json) : string :=
    match l with
    | [] => "]"
    | y :: r' => String "," (stringify y ++ tail r')
    end.

Definition object_tail : list (string * json) -> string :=
  fix tail (m : list (string * json)) : string :=
    match m with
    | [] => "}"
    | (k', y) :: r' =>
        String "," (quote k' ++ String ":" (stringify y ++ tail r'))
    end.

(** *** JSON.parse *)

Definition is_ws (c : ascii) : bool :=
  let n := N_of_ascii c in
  ((n =? 32) || (n =? 9) || (n =? 10) || (n =? 13))%N.

Fixpoint skip_ws (s : string) : string :=
  match s with
  | String c r => if is_ws c then skip_ws r else s
  | EmptyString => s
  end.

Definition is_digit (c : ascii) : bool :=
  let n := N_of_ascii c in ((48 <=? n) && (n <=? 57))%N.

Fixpoint span_digits (s : string) : string * string :=
  match s with
  | String c r =>
      if is_digit c
      then let '(ds, rest) := span_digits r in (String c ds, rest)
      else ("", s)
  | EmptyString => ("", "")
  end.

(** The digits of a JSON number: at least one, and no leading zero in
    front of another digit. *)
Definition int_digits (ds : string) : bool :=
  match ds with
  | EmptyString => false
  | String "0" (String _ _) => false
  | String _ _ => true
  end.

Definition parse_nat (s : string) : option (N * string) :=
  let '(ds, rest) := span_digits s in
  if int_digits ds then
    match NilEmpty.uint_of_string ds with
    | Some d => Some (N.of_uint d, rest)
    | None => None
    end
  else None.

(** A number: an optional minus sign and the digits.  What follows is
    left to the caller, so that a fraction or an exponent, which no caller
    expects, makes the parse fail. *)
Definition parse_number (s : string) : option (json * string) :=
  match s with
  | String "-" r =>
      match parse_nat r with
      | Some (n, rest) => Some (JNum (- Z.of_N n), rest)
      | None => None
      end
  | _ =>
      match parse_nat s with
      | Some (n, rest) => Some (JNum (Z.of_N n), rest)
      | None => None
      end
  end.

Definition hex_value (c : ascii) : option N :=
  let n := N_of_ascii c in
  if ((48 <=? n) && (n <=? 57))%N then Some (n - 48)%N
  else if ((97 <=? n) && (n <=? 102))%N then Some (n - 87)%N
  else if ((65 <=? n) && (n <=? 70))%N then Some (n - 55)%N
  else None.

(** [\uXXXX]; a code unit above 255 has no [ascii] and is refused. *)
Definition hex4 (a b c d : ascii) : option ascii :=
  match hex_value a, hex_value b, hex_value c, hex_value d with
  | Some x, Some y, Some z, Some w =>
      if ((x =? 0) && (y =? 0))%N then Some (ascii_of_N (16 * z + w)) else None
  | _, _, _, _ => None
  end.

Definition unescape (e : ascii) : option ascii :=
  let n := N_of_ascii e in
  if (n =? 34)%N then Some dquote
  else if (n =? 92)%N then Some "\"%char
  else if (n =? 47)%N then Some "/"%char
  else if (n =? 98)%N then Some "008"%char
  else if (n =? 102)%N then Some "012"%char
  else if (n =? 110)%N then Some "010"%char
  else if (n =? 114)%N then Some "013"%char
  else if (n =? 116)%N then Some "009"%char
  else None.

Definition cons_char (c : ascii) (r : option (string * string))
  : option (string * string) :=
  match r with
  | Some (s, rest) => Some (String c s, rest)
  | None => None
  end.

(** The characters of a string literal, after its opening quote. *)
Fixpoint parse_chars (s : string) : option (string * string) :=
  match s with
  | EmptyString => None
  | String c r =>
      if (N_of_ascii c =? 34)%N then Some ("", r)
      else if (N_of_ascii c =? 92)%N then
        match r with
        | String e r1 =>
            if (N_of_ascii e =? 117)%N then
              match r1 with
              | String h1 (String h2 (String h3 (String h4 r2))) =>
                  match hex4 h1 h2 h3 h4 with
                  | Some ch => cons_char ch (parse_chars r2)
                  | None => None
                  end
              | _ => None
              end
            else
              match unescape e with
              | Some ch => cons_char ch (parse_chars r1)
              | None => None
              end
        | EmptyString => None
        end
      else if (N_of_ascii c <? 32)%N then None
      else cons_char c (parse_chars r)
  end.

Definition expect (lit : string) (s : string) (j : json)
  : option (json * string) :=
  if startsWith s lit
  then Some (j, string_drop (String.length lit) s)
  else None.

(** The text after the next token, when that token is the character of
    code [n]. *)
Definition after_char (n : N) (s : string) : option string :=
  match skip_ws s with
  | String c r => if (N_of_ascii c =? n)%N then Some r else None
  | EmptyString => None
  end.

(** A member name and its colon. *)
Definition parse_key (s : string) : option (string * string) :=
  match after_char 34 s with
  | Some r =>
      match parse_chars r with
      | Some (k, r1) =>
          match after_char 58 r1 with
          | Some r2 => Some (k, r2)
          | None => None
          end
      | None => None
      end
  | None => None
  end.

(** Recursive descent; [fuel] bounds the nesting of calls, and the length
    of the text is always enough (see [parse] and
    [JSONFacts.parse_value_fuel]). *)
Fixpoint parse_value (fuel : nat) (s : string) : option (json * string) :=
  match fuel with
  | O => None
  | S fuel' =>
      match skip_ws s with
      | EmptyString => None
      | String c r =>
          let n := N_of_ascii c in
          if (n =? 110)%N then expect "ull" r JNull
          else if (n =? 116)%N then expect "rue" r (JBool true)
          else if (n =? 102)%N then expect "alse" r (JBool false)
          else if (n =? 34)%N then
            match parse_chars r with
            | Some (str, r1) => Some (JStr str, r1)
            | None => None
            end
          else if (n =? 91)%N then
            match after_char 93 r with
            | Some r1 => Some (JArr [], r1)
            | None =>
                match parse_value fuel' r with
                | Some (x, r1) =>
                    match parse_elements fuel' r1 with
                    | Some (xs, r2) => Some (JArr (x :: xs), r2)
                    | None => None
                    end
                | None => None
                end
            end
          else if (n =? 123)%N then
            match after_char 125 r with
            | Some r1 => Some (JObj [], r1)
            | None =>
                match parse_key r with
                | Some (k, r1) =>
                    match parse_value fuel' r1 with
                    | Some (x, r2) =>
                        match parse_members fuel' r2 with
                        | Some (xs, r3) => Some (JObj ((k, x) :: xs), r3)
                        | None => None
                        end
                    | None => None
                    end
                | None => None
                end
            end
          else parse_number (String c r)
      end
  end
with parse_elements (fuel : nat) (s : string) : option (list json * string) :=
  match fuel with
  | O => None
  | S fuel' =>
      match after_char 93 s with
      | Some r => Some ([], r)
      | None =>
          match after_char 44 s with
          | Some r =>
              match parse_value fuel' r with
              | Some (x, r1) =>
                  match parse_elements fuel' r1 with
                  | Some (xs, r2) => Some (x :: xs, r2)
                  | None => None
                  end
              | None => None
              end
          | None => None
          end
      end
  end
with parse_members (fuel : nat) (s : string)
  : option (list (string * json) * string) :=
  match fuel with
  | O => None
  | S fuel' =>
      match after_char 125 s with
      | Some r => Some ([], r)
      | None =>
          match after_char 44 s with
          | Some r =>
              match parse_key r with
              | Some (k, r1) =>
                  match parse_value fuel' r1 with
                  | Some (x, r2) =>
                      match parse_members fuel' r2 with
                      | Some (xs, r3) => Some ((k, x) :: xs, r3)
                      | None => None
                      end
                  | None => None
                  end
              | None => None
              end
          | None => None
          end
      end
  end.

(** What may follow a number without being read as one more digit. *)
Definition no_digit_ahead (rest : string) : Prop :=
  match rest with
  | EmptyString => True
  | String c _ => is_digit c = false
  end.

(** The characters a serialized value can begin with. *)
Definition value_start (c : ascii) : bool :=
  let n := N_of_ascii c in
  (is_digit c || (n =? 45) || (n =? 110) || (n =? 116) || (n =? 102)
   || (n =? 34) || (n =? 91) || (n =? 123))%N.

(** [JSON.parse(text)]: one value, then only white space. *)
Definition parse (text : string) : result json :=
  match parse_value (String.length text) text with
  | Some (j, rest) =>
      match skip_ws rest with
      | EmptyString => Ok j
      | String _ _ => Throw SyntaxError
      end
  | None => Throw SyntaxError
  end.

End JSON.

(** ** The underlying store

    Modelled from the spec: the raw key-value store handle (§6), an external
    collaborator of which the repository holds no code.  It is the Web
    Storage interface: a flat map from string keys to string values,
    enumerated by position.  [items] lists the entries in enumeration order;
    a new key is appended, a key that is already there keeps its position,
    and removing an entry moves the later ones one position down.  A write
    faults with [QuotaExceededError] when the store would grow past
    [quota]; every primitive faults when the store is not [available]
    (§7, "Unavailable store"). *)

Record Storage : Type := mkStorage {
  items : list (string * string);
  quota : nat;
  available : bool
}.

Definition QuotaExceededError : exn := DOMException "QuotaExceededError".
Definition SecurityError : exn := DOMException "SecurityError".

Fixpoint lookup (k : string) (l : list (string * string)) : option string :=
  match l with
  | [] => None
  | (k', v) :: r => if String.eqb k k' then Some v else lookup k r
  end.

Fixpoint update (k v : string) (l : list (string * string))
  : list (string * string) :=
  match l with
  | [] => [(k, v)]
  | (k', v') :: r =>
      if String.eqb k k' then (k, v) :: r else (k', v') :: update k v r
  end.

Definition delete (k : string) (l : list (string * string))
  : list (string * string) :=
  filter (fun kv => negb (String.eqb k (fst kv))) l.

Definition usage (l : list (string * string)) : nat :=
  fold_right
    (fun kv n => (String.length (fst kv) + String.length (snd kv) + n)%nat)
    O l.

Definition with_items (st : Storage) (l : list (string * string)) : Storage :=
  {| items := l; quota := quota st; available := available st |}.

Definition Storage_length (st : Storage) : result nat :=
  if available st then Ok (List.length (items st)) else Throw SecurityError.

Definition Storage_key (st : Storage) (i : nat) : result (option string) :=
  if available st
  then Ok (option_map fst (nth_error (items st) i))
  else Throw SecurityError.

Definition getItem (st : Storage) (k : string) : result (option string) :=
  if available st then Ok (lookup k (items st)) else Throw SecurityError.

Definition setItem (st : Storage) (k v : string) : result Storage :=
  if available st then
    let l := update k v (items st) in
    if (usage l <=? quota st)%nat then Ok (with_items st l)
    else Throw QuotaExceededError
  else Throw SecurityError.

Definition removeItem (st : Storage) (k : string) : result Storage :=
  if available st then Ok (with_items st (delete k (items st)))
  else Throw SecurityError.

(** The keys of a well-formed store are pairwise distinct. *)
Fixpoint distinct_keys (l : list (string * string)) : bool :=
  match l with
  | [] => true
  | (k, _) :: r =>
      match lookup k r with
      | Some _ => false
      | None => distinct_keys r
      end
  end.

(** ** Types of the wrapper *)

Record StoragePlusOptions : Type := mkOptions {
  o_namespace : option string;
  o_defaultTTL : option Z;
  o_enableWarnings : option bool
}.

Record StorageItem : Type := mkItem {
  value : json;
  expiresAt : option Z;
  createdAt : Z
}.

Record SetOptions : Type := mkSetOptions { ttl : option Z }.

(** The fields of a [StoragePlus] instance, apart from the handle, whose
    state is passed to and returned by every operation. *)
Record StoragePlus : Type := mkStoragePlus {
  namespace : string;
  defaultTTL : option Z;
  enableWarnings : bool
}.

(** One call of [console.warn]: the message and the error passed with it. *)
Inductive warning : Type :=
| Warn (msg : string) (err : option exn).

(** What a call leaves behind: its return value, the store and the
    warnings it printed. *)
Record outcome (A : Type) : Type := Out {
  ret : A;
  store : Storage;
  warned : list warning
}.
Arguments Out {A} ret store warned.
Arguments ret {A} o.
Arguments store {A} o.
Arguments warned {A} o.

(** [if (this.enableWarnings) console.warn(msg, error)] *)
Definition warn_if (self : StoragePlus) (msg : string) (err : option exn)
  : list warning :=
  if enableWarnings self then [Warn msg err] else [].

(** ** JavaScript operators on JSON data *)

(** [typeof x === 'object'] *)
Definition typeof_object (x : json) : bool :=
  match x with
  | JNull | JArr _ | JObj _ => true
  | JBool _ | JNum _ | JStr _ => false
  end.

(** [k in x], for a name [k] that is no array index, not [length] and no
    member of [Object.prototype] or [Array.prototype]: the two names the
    wrapper asks for.  On [null] the operator throws. *)
Definition js_in (k : string) (x : json) : result bool :=
  match x with
  | JObj m => Ok (existsb (String.eqb k) (map fst m))
  | JArr _ => Ok false
  | JNull | JBool _ | JNum _ | JStr _ => Throw TypeError
  end.

(** [x.k] under the same proviso; [None] is [undefined].  The last of
    several members of one name is the one the parsed object keeps. *)
Definition get_prop (k : string) (x : json) : option json :=
  match x with
  | JObj m =>
      fold_left
        (fun found kv => if String.eqb k (fst kv) then Some (snd kv) else found)
        m None
  | _ => None
  end.

Definition is_js_space (c : ascii) : bool :=
  let n := N_of_ascii c in
  (((9 <=? n) && (n <=? 13)) || (n =? 32) || (n =? 160))%N.

Fixpoint trim_left (s : string) : string :=
  match s with
  | String c r => if is_js_space c then trim_left r else s
  | EmptyString => s
  end.

Fixpoint digits_value (acc : N) (s : string) : option N :=
  match s with
  | EmptyString => Some acc
  | String c r =>
      if JSON.is_digit c
      then digits_value (10 * acc + (N_of_ascii c - 48))%N r
      else match trim_left s with EmptyString => Some acc | _ => None end
  end.

Definition unsigned_literal (s : string) : option Z :=
  match s with
  | String c _ =>
      if JSON.is_digit c then option_map Z.of_N (digits_value 0%N s) else None
  | EmptyString => None
  end.

(** StringToNumber on the integer spellings: optional white space, an
    optional sign, decimal digits, optional white space; the empty string
    is 0.  [None] is NaN, which is also the answer here for the spellings
    that have no integer value in this embedding (fraction, exponent, radix
    prefix, Infinity). *)
Definition StringToNumber (s : string) : option Z :=
  match trim_left s with
  | EmptyString => Some 0
  | String "-" r => option_map Z.opp (unsigned_literal r)
  | String "+" r => unsigned_literal r
  | t => unsigned_literal t
  end.

(** ToNumber; an array goes through its [toString], the members joined
    by commas, and a plain object through ["[object Object]"].  In the
    engine an object with an own member [toString] makes the conversion
    throw; here the answer is NaN for every object. *)
Fixpoint ToNumber (x : json) : option Z :=
  match x with
  | JNull => Some 0
  | JBool b => Some (if b then 1 else 0)
  | JNum n => Some n
  | JStr s => StringToNumber s
  | JArr [] => Some 0
  | JArr [y] =>
      match y with
      | JNull => Some 0
      | JBool _ => None
      | JNum n => Some n
      | JStr s => StringToNumber s
      | JArr _ => ToNumber y
      | JObj _ => None
      end
  | JArr _ => None
  | JObj _ => None
  end.

(** [n > x] for a number [n] and a property value [x]; with NaN on the
    right, so also with [undefined], the comparison is false. *)
Definition js_gt (n : Z) (x : option json) : bool :=
  match x with
  | None => false
  | Some y =>
      match ToNumber y with
      | Some m => n >? m
      | None => false
      end
  end.

(** The nearest IEEE 754 double to the integer [z], ties to the even
    mantissa; [None] is an infinity.  Up to [2^53] every integer is a
    double; beyond, a double keeps the 53 leading bits. *)
Definition round_to_double (z : Z) : option Z :=
  let a := Z.abs z in
  if a <=? 2 ^ 53 then Some z
  else
    let e := Z.log2 a - 52 in
    let q := Z.shiftr a e in
    let r := a - Z.shiftl q e in
    let half := Z.shiftl 1 (e - 1) in
    let q' := if (half <? r) || ((half =? r) && Z.odd q) then q + 1 else q in
    let m := Z.shiftl q' e in
    if 2 ^ 1024 <=? m then None else Some (Z.sgn z * m).

(** [a + b] on two numbers that are integers: the sum, rounded.  An
    infinite sum is [None]: [JSON.stringify] writes it as [null]. *)
Definition js_add (a b : Z) : option Z := round_to_double (a + b).

#[global] Arguments js_add : simpl never.

(** The integers that a timestamp or a duration in milliseconds can be
    without rounding. *)
Definition safe_integer (z : Z) : bool := Z.abs z <=? 2 ^ 53.

(** [JSON.stringify(item)] sees the three fields in the order of the
    object literal in [set]. *)
Definition item_json (it : StorageItem) : json :=
  JObj [ ("value", value it);
         ("expiresAt", match expiresAt it with
                       | Some e => JNum e
                       | None => JNull
                       end);
         ("createdAt", JNum (createdAt it)) ].

(** ** The class [StoragePlus] *)

(** [private testStorage()] *)
Definition testStorage (self : StoragePlus) (st : Storage) : outcome unit :=
  let testKey := (namespace self ++ "__test__")%string in
  let failed (st' : Storage) (e : exn) :=
    Out tt st'
      (warn_if self "StoragePlus: Storage is not available or in private mode"
         None) in
  match setItem st testKey "test" with
  | Throw e => failed st e
  | Ok st1 =>
      match removeItem st1 testKey with
      | Throw e => failed st1 e
      | Ok st2 => Out tt st2 []
      end
  end.

(** [constructor(storage, options = {})]: an empty [namespace] option and a
    [defaultTTL] of 0 are falsy. *)
Definition new_StoragePlus (st : Storage) (options : StoragePlusOptions)
  : outcome StoragePlus :=
  let self :=
    {| namespace :=
         match o_namespace options with
         | Some (String c r) => (String c r ++ ":")%string
         | Some EmptyString | None => ""
         end;
       defaultTTL :=
         match o_defaultTTL options with
         | Some t => if t =? 0 then None else Some t
         | None => None
         end;
       enableWarnings :=
         match o_enableWarnings options with
         | Some b => b
         | None => true
         end |} in
  let probe := testStorage self st in
  Out self (store probe) (warned probe).

(** [private getKey(key)] *)
Definition getKey (self : StoragePlus) (key : string) : string :=
  (namespace self ++ key)%string.

(** [private isExpired(item)], at the instant [now]. *)
Definition isExpired (now : Z) (item : json) : bool :=
  match get_prop "expiresAt" item with
  | Some JNull => false
  | e => js_gt now e
  end.

(** [private parseStoredData(data)]; [None] is its [null]. *)
Definition parseStoredData (data : string) : option json :=
  match JSON.parse data with
  | Throw _ => None
  | Ok parsed =>
      if typeof_object parsed then
        match js_in "value" parsed with
        | Throw _ => None
        | Ok false => None
        | Ok true =>
            match js_in "createdAt" parsed with
            | Throw _ => None
            | Ok false => None
            | Ok true => Some parsed
            end
        end
      else None
  end.

(** [set(key, value, options = {})] *)
Definition set (self : StoragePlus) (now : Z) (key : string) (v : json)
  (options : SetOptions) (st : Storage) : outcome bool :=
  let ttl :=
    match ttl options with
    | Some t => Some t
    | None => defaultTTL self
    end in
  let expiresAt :=
    match ttl with
    | Some t => if t =? 0 then None else js_add now t
    | None => None
    end in
  let item := {| value := v; expiresAt := expiresAt; createdAt := now |} in
  let fullKey := getKey self key in
  match setItem st fullKey (JSON.stringify (item_json item)) with
  | Ok st' => Out true st' []
  | Throw e =>
      Out false st
        (if enableWarnings self then
           match e with
           | DOMException "QuotaExceededError" =>
               [Warn "StoragePlus: Storage quota exceeded" None]
           | _ => [Warn "StoragePlus: Failed to set item" (Some e)]
           end
         else [])
  end.

(** [item.value], which [parseStoredData] has found to be there. *)
Definition item_value (item : json) : json :=
  match get_prop "value" item with
  | Some v => v
  | None => JNull
  end.

(** [get(key)]; [JNull] is the [null] of "no value". *)
Definition get (self : StoragePlus) (now : Z) (key : string) (st : Storage)
  : outcome json :=
  let fullKey := getKey self key in
  let failed (st' : Storage) (e : exn) :=
    Out JNull st' (warn_if self "StoragePlus: Failed to get item" (Some e)) in
  match getItem st fullKey with
  | Throw e => failed st e
  | Ok None => Out JNull st []
  | Ok (Some data) =>
      match parseStoredData data with
      | None =>
          (* Invalid data format, remove it *)
          match removeItem st fullKey with
          | Throw e => failed st e
          | Ok st' => Out JNull st' []
          end
      | Some item =>
          if isExpired now item then
            (* Item has expired, remove it *)
            match removeItem st fullKey with
            | Throw e => failed st e
            | Ok st' => Out JNull st' []
            end
          else Out (item_value item) st []
      end
  end.

Definition is_null (x : json) : bool :=
  match x with
  | JNull => true
  | _ => false
  end.

(** [has(key)]: [this.get(key) !== null] *)
Definition has (self : StoragePlus) (now : Z) (key : string) (st : Storage)
  : outcome bool :=
  let got := get self now key st in
  Out (negb (is_null (ret got))) (store got) (warned got).

(** [remove(key)] *)
Definition remove (self : StoragePlus) (key : string) (st : Storage)
  : outcome bool :=
  match removeItem st (getKey self key) with
  | Ok st' => Out true st' []
  | Throw e =>
      Out false st (warn_if self "StoragePlus: Failed to remove item" (Some e))
  end.

(** What one turn of a loop hands on: its local variable, the store, the
    warnings printed and the exception that left it, if any. *)
Record turn (A : Type) : Type := Turn {
  local : A;
  after : Storage;
  printed : list warning;
  raised : option exn
}.
Arguments Turn {A} local after printed raised.
Arguments local {A} t.
Arguments after {A} t.
Arguments printed {A} t.
Arguments raised {A} t.

(** [for (let i = 0; i < this.storage.length; i++) body], entered at [i].
    The length is read again before every turn.  [fuel] bounds the number
    of guard evaluations; the loops below start it above the length of the
    store, which no body here makes longer. *)
Fixpoint for_each_index {A : Type}
  (body : nat -> A -> Storage -> turn A)
  (fuel i : nat) (a : A) (st : Storage) (w : list warning) : turn A :=
  match fuel with
  | O => Turn a st w None
  | S fuel' =>
      match Storage_length st with
      | Throw e => Turn a st w (Some e)
      | Ok n =>
          if (i <? n)%nat then
            let t := body i a st in
            match raised t with
            | Some e => Turn (local t) (after t) (w ++ printed t) (Some e)
            | None =>
                for_each_index body fuel' (S i) (local t) (after t)
                  (w ++ printed t)
            end
          else Turn a st w None
      end
  end.

Definition loop {A : Type} (body : nat -> A -> Storage -> turn A)
  (a : A) (st : Storage) : turn A :=
  for_each_index body (S (List.length (items st))) O a st [].

(** [key && key.startsWith(this.namespace)]: the key when the test passes;
    [null] and the empty string are falsy. *)
Definition namespaced (self : StoragePlus) (key : option string)
  : option string :=
  match key with
  | Some (String c r) =>
      if startsWith (String c r) (namespace self)
      then Some (String c r)
      else None
  | Some EmptyString | None => None
  end.

(** [keysToRemove.forEach(key => this.storage.removeItem(key))], with the
    number of keys done. *)
Fixpoint remove_each (keys : list string) (st : Storage) (done : nat)
  : turn nat :=
  match keys with
  | [] => Turn done st [] None
  | k :: r =>
      match removeItem st k with
      | Throw e => Turn done st [] (Some e)
      | Ok st' => remove_each r st' (S done)
      end
  end.

(** The first pass of [clear()]. *)
Definition clear_body (self : StoragePlus) (i : nat)
  (keysToRemove : list string) (st : Storage) : turn (list string) :=
  match Storage_key st i with
  | Throw e => Turn keysToRemove st [] (Some e)
  | Ok key =>
      match namespaced self key with
      | Some k => Turn (keysToRemove ++ [k]) st [] None
      | None => Turn keysToRemove st [] None
      end
  end.

(** [clear()] *)
Definition clear (self : StoragePlus) (st : Storage) : outcome bool :=
  let failed (st' : Storage) (e : exn) :=
    Out false st'
      (warn_if self "StoragePlus: Failed to clear storage" (Some e)) in
  let pass := loop (clear_body self) [] st in
  match raised pass with
  | Some e => failed (after pass) e
  | None =>
      let swept := remove_each (local pass) (after pass) O in
      match raised swept with
      | Some e => failed (after swept) e
      | None => Out true (after swept) []
      end
  end.

(** The body of the loop of [keys()]. *)
Definition keys_body (self : StoragePlus) (now : Z) (i : nat)
  (keys : list string) (st : Storage) : turn (list string) :=
  match Storage_key st i with
  | Throw e => Turn keys st [] (Some e)
  | Ok fullKey =>
      match namespaced self fullKey with
      | Some k =>
          let key := string_drop (String.length (namespace self)) k in
          (* Check if the item exists and is not expired *)
          let h := has self now key st in
          if ret h
          then Turn (keys ++ [key]) (store h) (warned h) None
          else Turn keys (store h) (warned h) None
      | None => Turn keys st [] None
      end
  end.

(** [keys()] *)
Definition keys (self : StoragePlus) (now : Z) (st : Storage)
  : outcome (list string) :=
  let run := loop (keys_body self now) [] st in
  Out (local run) (after run)
    (printed run ++
     match raised run with
     | Some e => warn_if self "StoragePlus: Failed to get keys" (Some e)
     | None => []
     end).

(** The body of the loop of [size()]; [if (value)] passes neither [null]
    nor the empty string. *)
Definition size_body (self : StoragePlus) (i : nat) (totalSize : nat)
  (st : Storage) : turn nat :=
  match Storage_key st i with
  | Throw e => Turn totalSize st [] (Some e)
  | Ok key =>
      match namespaced self key with
      | Some k =>
          match getItem st k with
          | Throw e => Turn totalSize st [] (Some e)
          | Ok (Some (String c r)) =>
              Turn
                (totalSize + (String.length k + String.length (String c r)))%nat
                st [] None
          | Ok (Some EmptyString) | Ok None => Turn totalSize st [] None
          end
      | None => Turn totalSize st [] None
      end
  end.

(** [size()] *)
Definition size (self : StoragePlus) (st : Storage) : outcome nat :=
  let run := loop (size_body self) O st in
  Out (local run) (after run)
    match raised run with
    | Some e => warn_if self "StoragePlus: Failed to calculate size" (Some e)
    | None => []
    end.

(** The first pass of [cleanup()]. *)
Definition cleanup_body (self : StoragePlus) (now : Z) (i : nat)
  (keysToRemove : list string) (st : Storage) : turn (list string) :=
  match Storage_key st i with
  | Throw e => Turn keysToRemove st [] (Some e)
  | Ok fullKey =>
      match namespaced self fullKey with
      | Some k =>
          match getItem st k with
          | Throw e => Turn keysToRemove st [] (Some e)
          | Ok (Some (String c r)) =>
              match parseStoredData (String c r) with
              | Some item =>
                  if isExpired now item
                  then Turn (keysToRemove ++ [k]) st [] None
                  else Turn keysToRemove st [] None
              | None => Turn keysToRemove st [] None
              end
          | Ok (Some EmptyString) | Ok None => Turn keysToRemove st [] None
          end
      | None => Turn keysToRemove st [] None
      end
  end.

(** [cleanup()] *)
Definition cleanup (self : StoragePlus) (now : Z) (st : Storage)
  : outcome nat :=
  let failed (n : nat) (st' : Storage) (e : exn) :=
    Out n st'
      (warn_if self "StoragePlus: Failed to cleanup expired items" (Some e)) in
  let pass := loop (cleanup_body self now) [] st in
  match raised pass with
  | Some e => failed O (after pass) e
  | None =>
      let swept := remove_each (local pass) (after pass) O in
      match raised swept with
      | Some e => failed (local swept) (after swept) e
      | None => Out (local swept) (after swept) []
      end
  end.

(** The descriptor [getInfo] returns; an absent field is [None], and
    [expiresAt] is the property as it was read. *)
Record ItemInfo : Type := mkInfo {
  exists_ : bool;
  info_createdAt : option json;
  info_expiresAt : option (option json);
  info_size : option nat
}.

Definition not_there : ItemInfo :=
  {| exists_ := false; info_createdAt := None; info_expiresAt := None;
     info_size := None |}.

(** [getInfo(key)] *)
Definition getInfo (self : StoragePlus) (now : Z) (key : string)
  (st : Storage) : outcome ItemInfo :=
  let fullKey := getKey self key in
  let failed (st' : Storage) (e : exn) :=
    Out not_there st'
      (warn_if self "StoragePlus: Failed to get item info" (Some e)) in
  match getItem st fullKey with
  | Throw e => failed st e
  | Ok None => Out not_there st []
  | Ok (Some data) =>
      match parseStoredData data with
      | None => Out not_there st []
      | Some item =>
          if isExpired now item then
            (* Clean up expired item *)
            match removeItem st fullKey with
            | Throw e => failed st e
            | Ok st' => Out not_there st' []
            end
          else
            Out {| exists_ := true;
                   info_createdAt := get_prop "createdAt" item;
                   info_expiresAt := Some (get_prop "expiresAt" item);
                   info_size := Some (String.length data) |} st []
      end
  end.

(** ** Calls of the public interface, for statements about all of them *)

Inductive call : Type :=
| Call_set (key : string) (v : json) (options : SetOptions)
| Call_get (key : string)
| Call_has (key : string)
| Call_remove (key : string)
| Call_clear
| Call_keys
| Call_size
| Call_cleanup
| Call_getInfo (key : string).

Inductive returned : Type :=
| Ret_bool (b : bool)
| Ret_value (v : json)
| Ret_keys (l : list string)
| Ret_number (n : nat)
| Ret_info (i : ItemInfo).

Definition map_ret {A B : Type} (f : A -> B) (o : outcome A) : outcome B :=
  Out (f (ret o)) (store o) (warned o).

Definition perform (self : StoragePlus) (now : Z) (c : call) (st : Storage)
  : outcome returned :=
  match c with
  | Call_set key v options => map_ret Ret_bool (set self now key v options st)
  | Call_get key => map_ret Ret_value (get self now key st)
  | Call_has key => map_ret Ret_bool (has self now key st)
  | Call_remove key => map_ret Ret_bool (remove self key st)
  | Call_clear => map_ret Ret_bool (clear self st)
  | Call_keys => map_ret Ret_keys (keys self now st)
  | Call_size => map_ret Ret_number (size self st)
  | Call_cleanup => map_ret Ret_number (cleanup self now st)
  | Call_getInfo key => map_ret Ret_info (getInfo self now key st)
  end.

(** ** Predicates of the statements *)

(** The full key [k] passes the test of the loops: it is not empty and
    starts with the namespace prefix. *)
Definition owned (self : StoragePlus) (k : string) : bool :=
  match k with
  | EmptyString => false
  | String _ _ => startsWith k (namespace self)
  end.

(** The raw text [data] is a well-formed envelope that is expired at [now]. *)
Definition stale (now : Z) (data : string) : bool :=
  match parseStoredData data with
  | Some item => isExpired now item
  | None => false
  end.

(** The raw text [data] is a well-formed, unexpired envelope whose payload
    is not [null]: what [has] answers [true] on. *)
Definition live (now : Z) (data : string) : bool :=
  match parseStoredData data with
  | Some item => negb (isExpired now item) && negb (is_null (item_value item))
  | None => false
  end.

Definition is_none {B : Type} (o : option B) : bool :=
  match o with
  | Some _ => false
  | None => true
  end.

Definition mem (k : string) (ks : list string) : bool :=
  existsb (String.eqb k) ks.

Definition is_empty (s : string) : bool :=
  match s with
  | EmptyString => true
  | String _ _ => false
  end.

(** The size the specification describes: over every entry whose full key
    starts with the prefix, the length of the key plus the length of the
    raw value. *)
Definition size_as_specified (self : StoragePlus)
  (l : list (string * string)) : nat :=
  list_sum
    (map (fun kv => (String.length (fst kv) + String.length (snd kv))%nat)
       (filter (fun kv => startsWith (fst kv) (namespace self)) l)).

(** Two runs with the same return value and the same store. *)
Definition same_effect {B : Type} (o1 o2 : outcome B) : Prop :=
  ret o1 = ret o2 /\ store o1 = store o2.

(** The test of the first pass of [cleanup], on the key alone. *)
Definition cleanup_picks (self : StoragePlus) (now : Z) (st : Storage)
  (k : string) : bool :=
  owned self k &&
  match lookup k (items st) with
  | Some data => stale now data
  | None => false
  end.

(** What one turn of the loop of [size] adds for the key [k]. *)
Definition size_counts (self : StoragePlus) (st : Storage) (k : string)
  : nat :=
  if owned self k then
    match lookup k (items st) with
    | Some (String c r) => String.length k + String.length (String c r)
    | Some EmptyString | None => 0
    end
  else 0.

(** An entry that [cleanup] is to remove: its key passes the test of the
    loop and its text is a well-formed, expired envelope. *)
Definition expired_entry (self : StoragePlus) (now : Z)
  (kv : string * string) : bool :=
  owned self (fst kv) && stale now (snd kv).

(** An entry that [size] counts: its key passes the test of the loop and
    its text is not empty. *)
Definition counted_entry (self : StoragePlus) (kv : string * string) : bool :=
  owned self (fst kv) && negb (is_empty (snd kv)).

Definition entry_size (kv : string * string) : nat :=
  String.length (fst kv) + String.length (snd kv).

(** The entries of [l'] are entries of [l]: every key is either gone or
    holds what it held. *)
Definition substore (l' l : list (string * string)) : Prop :=
  forall k, lookup k l' = None \/ lookup k l' = lookup k l.

(** The user-facing key [key] names a live entry of [l]. *)
Definition names_live (self : StoragePlus) (now : Z)
  (l : list (string * string)) (key : string) : Prop :=
  exists data,
    lookup (namespace self ++ key) l = Some data /\ live now data = true.

(** An entry that [keys] lists: its key passes the test of the loop and
    [has] accepts its text. *)
Definition listed_entry (self : StoragePlus) (now : Z)
  (kv : string * string) : bool :=
  owned self (fst kv) && live now (snd kv).

(** [fullKey.substring(this.namespace.length)] *)
Definition user_key (self : StoragePlus) (fullKey : string) : string :=
  string_drop (String.length (namespace self)) fullKey.

(** ** The factory functions *)

(** The two handles of [window]. *)
Record Window : Type := mkWindow {
  localStorage : Storage;
  sessionStorage : Storage
}.

(** [options = {}], the default of the constructor's parameter. *)
Definition no_options : StoragePlusOptions :=
  {| o_namespace := None; o_defaultTTL := None; o_enableWarnings := None |}.

(** [createLocalStorage(options?)]: [new StoragePlus(window.localStorage,
    options)]; the outcome holds the instance and what the constructor's
    probe leaves of the handle. *)
Definition createLocalStorage (w : Window)
  (options : option StoragePlusOptions) : outcome StoragePlus :=
  new_StoragePlus (localStorage w)
    match options with
    | Some o => o
    | None => no_options
    end.

(** [createSessionStorage(options?)] *)
Definition createSessionStorage (w : Window)
  (options : option StoragePlusOptions) : outcome StoragePlus :=
  new_StoragePlus (sessionStorage w)
    match options with
    | Some o => o
    | None => no_options
    end.

(** [localStoragePlus] and [sessionStoragePlus], the default instances. *)
Definition localStoragePlus (w : Window) : outcome StoragePlus :=
  createLocalStorage w None.

Definition sessionStoragePlus (w : Window) : outcome StoragePlus :=
  createSessionStorage w None.

(** ** Further predicates of the statements *)

(** The ttl that [set] resolves: the one of the call, else the default. *)
Definition resolved_ttl (self : StoragePlus) (options : SetOptions)
  : option Z :=
  match ttl options with
  | Some t => Some t
  | None => defaultTTL self
  end.

(** The [expiresAt] that [set] computes at [now]. *)
Definition expiry (self : StoragePlus) (now : Z) (options : SetOptions)
  : option Z :=
  match resolved_ttl self options with
  | Some t => if t =? 0 then None else js_add now t
  | None => None
  end.

(** The text that [set] writes. *)
Definition envelope (self : StoragePlus) (now : Z) (v : json)
  (options : SetOptions) : string :=
  JSON.stringify
    (item_json {| value := v; expiresAt := expiry self now options;
                  createdAt := now |}).

(** What each operation returns from its [catch] block. *)
Definition failure_value (c : call) : returned :=
  match c with
  | Call_set _ _ _ | Call_has _ | Call_remove _ | Call_clear => Ret_bool false
  | Call_get _ => Ret_value JNull
  | Call_keys => Ret_keys []
  | Call_size | Call_cleanup => Ret_number O
  | Call_getInfo _ => Ret_info not_there
  end.

(** The message of the warning each operation prints there; [has] prints
    the one of [get]. *)
Definition failure_message (c : call) : string :=
  match c with
  | Call_set _ _ _ => "StoragePlus: Failed to set item"
  | Call_get _ | Call_has _ => "StoragePlus: Failed to get item"
  | Call_remove _ => "StoragePlus: Failed to remove item"
  | Call_clear => "StoragePlus: Failed to clear storage"
  | Call_keys => "StoragePlus: Failed to get keys"
  | Call_size => "StoragePlus: Failed to calculate size"
  | Call_cleanup => "StoragePlus: Failed to cleanup expired items"
  | Call_getInfo _ => "StoragePlus: Failed to get item info"
  end.

(** [l'] is [l] without some entries whose keys start with [ns]. *)
Definition pruned (ns : string) (l' l : list (string * string)) : Prop :=
  forall k,
    lookup k l' = lookup k l \/
    (lookup k l' = None /\ startsWith k ns = true).

(** No entry of [l] under the namespace is corrupt or expired at [now]. *)
Definition clean (self : StoragePlus) (now : Z)
  (l : list (string * string)) : Prop :=
  forall kv, In kv l -> owned self (fst kv) = true ->
             is_none (parseStoredData (snd kv)) = false /\
             stale now (snd kv) = false.

Fixpoint has_colon (s : string) : bool :=
  match s with
  | EmptyString => false
  | String c r => Ascii.eqb c ":" || has_colon r
  end.



(** [st'] is [st] without some entries under the namespace of [self]. *)
Definition shrunk (self : StoragePlus) (st st' : Storage) : Prop :=
  exists l', st' = with_items st l' /\ pruned (namespace self) l' (items st).

Definition is_set (c : call) : bool :=
  match c with
  | Call_set _ _ _ => true
  | _ => false
  end.

(** * Properties *)

(** ** Strings *)

Lemma length_append (a b : string) :
  String.length (a ++ b)%string = (String.length a + String.length b)%nat.
Proof. induction a as [|c a IH]; simpl; [reflexivity | now rewrite IH]. Qed.

Lemma append_assoc (a b c : string) :
  ((a ++ b) ++ c = a ++ (b ++ c))%string.
Proof. induction a as [|x a IH]; simpl; [reflexivity | now rewrite IH]. Qed.

Lemma append_nil_r (a : string) : (a ++ "" = a)%string.
Proof. induction a as [|x a IH]; simpl; [reflexivity | now rewrite IH]. Qed.

Lemma string_drop_0 (s : string) : string_drop 0 s = s.
Proof. now destruct s. Qed.

Lemma string_drop_append (a b : string) :
  string_drop (String.length a) (a ++ b) = b.
Proof. induction a as [|x a IH]; simpl; [reflexivity | exact IH]. Qed.

(** ** [JSON.parse] undoes [JSON.stringify] *)

Module JSONFacts.
Import JSON.

(** Induction on JSON data, through the lists of an array and an object. *)
Lemma json_ind (P : json -> Prop)
  (HNull : P JNull)
  (HBool : forall b, P (JBool b))
  (HNum : forall n, P (JNum n))
  (HStr : forall s, P (JStr s))
  (HArr : forall l, Forall P l -> P (JArr l))
  (HObj : forall m, Forall (fun kv => P (snd kv)) m -> P (JObj m)) :
  forall j, P j.
Proof.
  refine (fix go (j : json) : P j :=
    match j with
    | JNull => HNull
    | JBool b => HBool b
    | JNum n => HNum n
    | JStr s => HStr s
    | JArr l =>
        HArr l ((fix all (l : list json) : Forall P l :=
                   match l with
                   | [] => Forall_nil _
                   | x :: r => Forall_cons x (go x) (all r)
                   end) l)
    | JObj m =>
        HObj m ((fix all (m : list (string * json))
                   : Forall (fun kv => P (snd kv)) m :=
                   match m with
                   | [] => Forall_nil _
                   | kv :: r => Forall_cons kv (go (snd kv)) (all r)
                   end) m)
    end).
Qed.

Ltac by_cases_on_char c :=
  destruct c as [[|] [|] [|] [|] [|] [|] [|] [|]];
  try discriminate; try reflexivity.

Lemma span_digits_uint (d : Decimal.uint) (rest : string) :
  no_digit_ahead rest ->
  span_digits (NilEmpty.string_of_uint d ++ rest)
  = (NilEmpty.string_of_uint d, rest).
Proof.
  intros Hrest.
  induction d; simpl; try (rewrite IHd; reflexivity).
  destruct rest as [|c r]; simpl in *; [reflexivity | now rewrite Hrest].
Qed.

Lemma nzhead_not_D0 (d d' : Decimal.uint) : Decimal.nzhead d <> Decimal.D0 d'.
Proof. induction d; simpl; try discriminate; exact IHd. Qed.

Lemma to_uint_not_D0 (p : positive) (d : Decimal.uint) :
  Pos.to_uint p <> Decimal.D0 d.
Proof.
  intros E.
  pose proof (DecimalPos.Unsigned.to_of (Pos.to_uint p)) as H.
  rewrite DecimalPos.Unsigned.of_to in H. simpl in H.
  rewrite E in H. rewrite DecimalFacts.unorm_D0 in H.
  unfold Decimal.unorm in H.
  destruct (Decimal.nzhead d) eqn:Hd; try discriminate H.
  - injection H as H. subst d.
    exact (DecimalPos.Unsigned.to_uint_nonzero p E).
  - exact (nzhead_not_D0 _ _ Hd).
Qed.

Lemma int_digits_pos (p : positive) : int_digits (print_pos p) = true.
Proof.
  unfold print_pos.
  pose proof (DecimalPos.Unsigned.to_uint_nonnil p) as Hnil.
  pose proof (to_uint_not_D0 p) as H0.
  destruct (Pos.to_uint p); try reflexivity.
  - now contradiction Hnil.
  - now contradiction (H0 u).
Qed.

Lemma parse_nat_pos (p : positive) (rest : string) :
  no_digit_ahead rest ->
  parse_nat (print_pos p ++ rest) = Some (Npos p, rest).
Proof.
  intros Hrest. unfold parse_nat.
  unfold print_pos at 1. rewrite (span_digits_uint _ _ Hrest).
  fold (print_pos p). rewrite int_digits_pos.
  unfold print_pos. rewrite NilEmpty.usu.
  unfold N.of_uint. now rewrite DecimalPos.Unsigned.of_to.
Qed.

Lemma print_pos_head (p : positive) :
  exists c r, print_pos p = String c r /\ is_digit c = true.
Proof.
  unfold print_pos.
  pose proof (DecimalPos.Unsigned.to_uint_nonnil p) as Hnil.
  destruct (Pos.to_uint p); try (now contradiction Hnil);
    simpl; eexists; eexists; split; reflexivity.
Qed.

Lemma parse_number_digit (c : ascii) (r : string) :
  is_digit c = true ->
  parse_number (String c r)
  = match parse_nat (String c r) with
    | Some (n, rest) => Some (JNum (Z.of_N n), rest)
    | None => None
    end.
Proof. intros H. by_cases_on_char c. Qed.

Lemma parse_number_print (z : Z) (rest : string) :
  no_digit_ahead rest ->
  parse_number (print_Z z ++ rest) = Some (JNum z, rest).
Proof.
  intros Hrest. destruct z as [|p|p].
  - simpl. unfold parse_nat. simpl.
    destruct rest as [|c r]; simpl in *; [reflexivity | now rewrite Hrest].
  - cbn [print_Z]. destruct (print_pos_head p) as (c & r & E & Hc).
    pose proof (parse_nat_pos p rest Hrest) as H.
    rewrite E in *.
    change (String c r ++ rest)%string with (String c (r ++ rest)) in *.
    rewrite (parse_number_digit _ _ Hc). now rewrite H.
  - simpl. now rewrite (parse_nat_pos p rest Hrest).
Qed.

Lemma print_Z_head (z : Z) :
  exists c r, print_Z z = String c r /\ value_start c = true.
Proof.
  destruct z as [|p|p]; simpl.
  - eexists; eexists; split; reflexivity.
  - destruct (print_pos_head p) as (c & r & E & Hc).
    exists c, r. split; [exact E|]. unfold value_start. now rewrite Hc.
  - eexists; eexists; split; reflexivity.
Qed.

(** Strings *)

Lemma parse_chars_escape_char (c : ascii) (r : string) :
  parse_chars (escape_char c ++ r) = cons_char c (parse_chars r).
Proof. by_cases_on_char c. Qed.

Lemma parse_chars_escape (s rest : string) :
  parse_chars (escape s ++ String dquote rest) = Some (s, rest).
Proof.
  induction s as [|c s IH]; [reflexivity|].
  cbn [escape]. rewrite append_assoc, parse_chars_escape_char.
  now rewrite IH.
Qed.

Lemma quote_append (s rest : string) :
  (quote s ++ rest)%string = String dquote (escape s ++ String dquote rest).
Proof. unfold quote. simpl. now rewrite append_assoc. Qed.

Lemma parse_key_quote (k rest : string) :
  parse_key (quote k ++ String ":" rest) = Some (k, rest).
Proof.
  rewrite quote_append. unfold parse_key.
  change (after_char 34
            (String dquote (escape k ++ String dquote (String ":" rest))))
    with (Some (escape k ++ String dquote (String ":" rest))%string).
  cbv beta iota. now rewrite parse_chars_escape.
Qed.

(** Values *)

Lemma stringify_head (j : json) :
  exists c r, stringify j = String c r /\ value_start c = true.
Proof.
  destruct j as [|[|]|n|s|[|x l]|[|[k x] m]];
    try (eexists; eexists; split; reflexivity).
  exact (print_Z_head n).
Qed.

Lemma parse_value_number (fuel : nat) (c : ascii) (s : string) :
  (is_digit c || (N_of_ascii c =? 45)%N) = true ->
  parse_value (S fuel) (String c s) = parse_number (String c s).
Proof. intros H. by_cases_on_char c. Qed.

Lemma parse_value_array (fuel : nat) (c : ascii) (s : string) :
  value_start c = true ->
  parse_value (S fuel) (String "[" (String c s))
  = match parse_value fuel (String c s) with
    | Some (x, r1) =>
        match parse_elements fuel r1 with
        | Some (xs, r2) => Some (JArr (x :: xs), r2)
        | None => None
        end
    | None => None
    end.
Proof. intros H. by_cases_on_char c. Qed.

Lemma stringify_array (x : json) (l : list json) :
  stringify (JArr (x :: l)) = String "[" (stringify x ++ array_tail l).
Proof. reflexivity. Qed.

Lemma stringify_object (k : string) (x : json) (m : list (string * json)) :
  stringify (JObj ((k, x) :: m))
  = String "{" (quote k ++ String ":" (stringify x ++ object_tail m)).
Proof. reflexivity. Qed.

Lemma parse_elements_tail (l : list json) (fuel : nat) (rest : string) :
  Forall (fun j => forall fuel rest,
            (String.length (stringify j) <= fuel)%nat ->
            no_digit_ahead rest ->
            parse_value fuel (stringify j ++ rest) = Some (j, rest)) l ->
  (String.length (array_tail l) <= fuel)%nat ->
  parse_elements fuel (array_tail l ++ rest) = Some (l, rest).
Proof.
  intros Hl. revert fuel.
  induction Hl as [|y l Hy Hl IH]; intros fuel Hfuel.
  - destruct fuel as [|fuel]; [simpl in Hfuel; lia | reflexivity].
  - cbn [array_tail] in Hfuel |- *. fold array_tail in Hfuel |- *.
    cbn [String.length] in Hfuel. rewrite length_append in Hfuel.
    destruct fuel as [|fuel]; [lia|].
    change (parse_elements (S fuel)
              (String "," (stringify y ++ array_tail l) ++ rest))
      with (match parse_value fuel ((stringify y ++ array_tail l) ++ rest) with
            | Some (x, r1) =>
                match parse_elements fuel r1 with
                | Some (xs, r2) => Some (x :: xs, r2)
                | None => None
                end
            | None => None
            end).
    rewrite append_assoc, Hy; [| lia | ].
    + rewrite IH by lia. reflexivity.
    + destruct l; exact eq_refl.
Qed.

Lemma parse_members_tail (m : list (string * json)) (fuel : nat)
  (rest : string) :
  Forall (fun kv => forall fuel rest,
            (String.length (stringify (snd kv)) <= fuel)%nat ->
            no_digit_ahead rest ->
            parse_value fuel (stringify (snd kv) ++ rest)
            = Some (snd kv, rest)) m ->
  (String.length (object_tail m) <= fuel)%nat ->
  parse_members fuel (object_tail m ++ rest) = Some (m, rest).
Proof.
  intros Hm. revert fuel.
  induction Hm as [|[k y] m Hy Hm IH]; intros fuel Hfuel.
  - destruct fuel as [|fuel]; [simpl in Hfuel; lia | reflexivity].
  - cbn [object_tail] in Hfuel |- *. fold object_tail in Hfuel |- *.
    cbn [String.length] in Hfuel.
    rewrite length_append in Hfuel. cbn [String.length] in Hfuel.
    rewrite length_append in Hfuel.
    destruct fuel as [|fuel]; [lia|].
    change (parse_members (S fuel)
              (String "," (quote k ++ String ":" (stringify y ++ object_tail m))
               ++ rest))
      with (match parse_key ((quote k ++ String ":"
                                (stringify y ++ object_tail m)) ++ rest) with
            | Some (k', r1) =>
                match parse_value fuel r1 with
                | Some (x, r2) =>
                    match parse_members fuel r2 with
                    | Some (xs, r3) => Some ((k', x) :: xs, r3)
                    | None => None
                    end
                | None => None
                end
            | None => None
            end).
    rewrite append_assoc.
    change (String ":" (stringify y ++ object_tail m) ++ rest)%string
      with (String ":" ((stringify y ++ object_tail m) ++ rest)).
    rewrite parse_key_quote, append_assoc.
    simpl in Hy. rewrite Hy; [| lia | ].
    + rewrite IH by lia. reflexivity.
    + destruct m as [|[? ?] ?]; exact eq_refl.
Qed.

Lemma parse_value_stringify (j : json) :
  forall (fuel : nat) (rest : string),
    (String.length (stringify j) <= fuel)%nat ->
    no_digit_ahead rest ->
    parse_value fuel (stringify j ++ rest) = Some (j, rest).
Proof.
  induction j as [|b|n|s|l IH|m IH] using json_ind; intros fuel rest Hfuel Hrest.
  - destruct fuel as [|fuel]; [simpl in Hfuel; lia|].
    reflexivity.
  - destruct fuel as [|fuel]; [destruct b; simpl in Hfuel; lia|].
    destruct b; reflexivity.
  - destruct (print_Z_head n) as (c & r & E & Hc).
    destruct fuel as [|fuel];
      [cbn [stringify] in Hfuel; rewrite E in Hfuel; simpl in Hfuel; lia|].
    pose proof (parse_number_print n rest Hrest) as H.
    cbn [stringify]. rewrite E in *.
    change (String c r ++ rest)%string with (String c (r ++ rest)) in *.
    rewrite parse_value_number; [exact H|].
    destruct n as [|p|p]; cbn [print_Z] in E.
    + now injection E as <- _.
    + destruct (print_pos_head p) as (c' & r' & E' & Hc').
      rewrite E' in E. injection E as <- _. now rewrite Hc'.
    + now injection E as <- _.
  - destruct fuel as [|fuel]; [simpl in Hfuel; lia|].
    cbn [stringify]. rewrite quote_append.
    cbn. now rewrite parse_chars_escape.
  - destruct l as [|x l].
    + destruct fuel as [|fuel]; [simpl in Hfuel; lia | reflexivity].
    + rewrite stringify_array in Hfuel |- *.
      cbn [String.length] in Hfuel. rewrite length_append in Hfuel.
      destruct fuel as [|fuel]; [lia|].
      inversion IH as [|? ? Hx Hl]; subst.
      destruct (stringify_head x) as (c & r & E & Hc).
      change (String "[" (stringify x ++ array_tail l) ++ rest)%string
        with (String "[" ((stringify x ++ array_tail l) ++ rest)).
      rewrite append_assoc.
      pose proof (Hx fuel (array_tail l ++ rest)%string) as Hx'.
      rewrite E in Hx' |- *.
      change (String c r ++ array_tail l ++ rest)%string
        with (String c (r ++ array_tail l ++ rest)) in *.
      rewrite (parse_value_array _ _ _ Hc).
      rewrite Hx'; [| rewrite E in Hfuel; lia | destruct l; exact eq_refl].
      now rewrite (parse_elements_tail l fuel rest Hl) by lia.
  - destruct m as [|[k x] m].
    + destruct fuel as [|fuel]; [simpl in Hfuel; lia | reflexivity].
    + rewrite stringify_object in Hfuel |- *.
      cbn [String.length] in Hfuel. rewrite length_append in Hfuel.
      cbn [String.length] in Hfuel. rewrite length_append in Hfuel.
      destruct fuel as [|fuel]; [lia|].
      inversion IH as [|? ? Hx Hm]; subst. simpl in Hx.
      change (String "{" (quote k ++ String ":" (stringify x ++ object_tail m))
              ++ rest)%string
        with (String "{" ((quote k ++ String ":"
                             (stringify x ++ object_tail m)) ++ rest)).
      rewrite append_assoc.
      change (String ":" (stringify x ++ object_tail m) ++ rest)%string
        with (String ":" ((stringify x ++ object_tail m) ++ rest)).
      rewrite append_assoc.
      pose proof (parse_key_quote k
                    (stringify x ++ object_tail m ++ rest)%string) as Hk.
      rewrite quote_append in Hk |- *.
      change (parse_value (S fuel)
                (String "{" (String dquote
                   (escape k ++ String dquote
                      (String ":" (stringify x ++ object_tail m ++ rest))))))
        with (match parse_key (String dquote
                   (escape k ++ String dquote
                      (String ":" (stringify x ++ object_tail m ++ rest)))) with
              | Some (k', r1) =>
                  match parse_value fuel r1 with
                  | Some (y, r2) =>
                      match parse_members fuel r2 with
                      | Some (xs, r3) => Some (JObj ((k', y) :: xs), r3)
                      | None => None
                      end
                  | None => None
                  end
              | None => None
              end).
      rewrite Hk, Hx; [| lia | destruct m as [|[? ?] ?]; exact eq_refl].
      now rewrite (parse_members_tail m fuel rest Hm) by lia.
Qed.

(** [JSON.parse(JSON.stringify(j))] is [j]. *)
Lemma parse_stringify (j : json) : parse (stringify j) = Ok j.
Proof.
  unfold parse.
  rewrite <- (append_nil_r (stringify j)) at 2.
  rewrite parse_value_stringify; [reflexivity | lia | exact I].
Qed.

(** *** Fuel: the length of the text is enough *)

Lemma skip_ws_length (s : string) :
  (String.length (skip_ws s) <= String.length s)%nat.
Proof.
  induction s as [|c s IH]; [apply Nat.le_refl|].
  cbn [skip_ws]. destruct (is_ws c); cbn [String.length]; lia.
Qed.

Lemma skip_ws_cons (s r : string) (c : ascii) :
  skip_ws s = String c r -> (String.length r < String.length s)%nat.
Proof.
  intros H. pose proof (skip_ws_length s) as Hle.
  rewrite H in Hle. cbn [String.length] in Hle. lia.
Qed.

Lemma cons_char_length (c : ascii) (o : option (string * string))
  (x r : string) (n : nat) :
  (forall x' r', o = Some (x', r') -> (String.length r' < n)%nat) ->
  cons_char c o = Some (x, r) -> (String.length r < n)%nat.
Proof.
  intros Ho. destruct o as [[x' r']|]; [|discriminate].
  cbn. intros [= _ <-]. now apply (Ho x').
Qed.

Lemma parse_chars_length (s x r : string) :
  parse_chars s = Some (x, r) -> (String.length r < String.length s)%nat.
Proof.
  remember (String.length s) as n eqn:Hn.
  assert (Hle : (String.length s <= n)%nat) by lia. clear Hn.
  revert s x r Hle.
  induction n as [|n IH]; intros s x r Hle;
    (destruct s as [|c s]; [discriminate|]); cbn [String.length] in Hle;
    [lia|].
  cbn [parse_chars].
  destruct (N_of_ascii c =? 34)%N; [intros [= _ <-]; lia|].
  destruct (N_of_ascii c =? 92)%N.
  - destruct s as [|e s1]; [discriminate|].
    destruct (N_of_ascii e =? 117)%N.
    + destruct s1 as [|h1 [|h2 [|h3 [|h4 s2]]]]; try discriminate.
      destruct (hex4 h1 h2 h3 h4); [|discriminate].
      intros H. cbn [String.length] in Hle.
      apply (cons_char_length _ _ _ _ _ (fun x' r' E =>
               IH s2 x' r' ltac:(lia) E)) in H. lia.
    + destruct (unescape e); [|discriminate].
      intros H. cbn [String.length] in Hle.
      apply (cons_char_length _ _ _ _ _ (fun x' r' E =>
               IH s1 x' r' ltac:(lia) E)) in H. lia.
  - destruct (N_of_ascii c <? 32)%N; [discriminate|].
    intros H.
    apply (cons_char_length _ _ _ _ _ (fun x' r' E =>
             IH s x' r' ltac:(lia) E)) in H. lia.
Qed.

Lemma after_char_length (n : N) (s r : string) :
  after_char n s = Some r -> (String.length r < String.length s)%nat.
Proof.
  unfold after_char. destruct (skip_ws s) as [|c s1] eqn:Hs; [discriminate|].
  apply skip_ws_cons in Hs.
  destruct (N_of_ascii c =? n)%N; [|discriminate]. now intros [= <-].
Qed.

Lemma parse_key_length (s k r : string) :
  parse_key s = Some (k, r) -> (String.length r < String.length s)%nat.
Proof.
  unfold parse_key.
  destruct (after_char 34 s) as [s1|] eqn:Hs; [|discriminate].
  apply after_char_length in Hs.
  destruct (parse_chars s1) as [[k' r1]|] eqn:Hk; [|discriminate].
  apply parse_chars_length in Hk.
  destruct (after_char 58 r1) as [r2|] eqn:Hr1; [|discriminate].
  apply after_char_length in Hr1.
  intros [= _ <-]. lia.
Qed.

Lemma span_digits_length (s : string) :
  (String.length (fst (span_digits s)) + String.length (snd (span_digits s))
   = String.length s)%nat.
Proof.
  induction s as [|c s IH]; [reflexivity|]. cbn [span_digits].
  destruct (is_digit c); [|reflexivity].
  destruct (span_digits s) as [ds rest]. cbn in *. lia.
Qed.

Lemma parse_nat_length (s r : string) (n : N) :
  parse_nat s = Some (n, r) -> (String.length r < String.length s)%nat.
Proof.
  unfold parse_nat. pose proof (span_digits_length s) as Hlen.
  destruct (span_digits s) as [ds rest]. cbn [fst snd] in Hlen.
  destruct ds as [|d ds]; [discriminate|].
  destruct (int_digits (String d ds)); [|discriminate].
  destruct (NilEmpty.uint_of_string (String d ds)); [|discriminate].
  intros [= _ <-]. cbn [String.length] in Hlen. lia.
Qed.

Lemma parse_number_length (s r : string) (j : json) :
  parse_number s = Some (j, r) -> (String.length r < String.length s)%nat.
Proof.
  assert (Hplain : forall s,
            match parse_nat s with
            | Some (n, rest) => Some (JNum (Z.of_N n), rest)
            | None => None
            end = Some (j, r) ->
            (String.length r < String.length s)%nat).
  { intros s0. destruct (parse_nat s0) as [[n rest]|] eqn:E; [|discriminate].
    intros [= _ <-]. exact (parse_nat_length _ _ _ E). }
  destruct s as [|c s1]; [exact (Hplain "")|].
  destruct (Ascii.eqb_spec c "-") as [->|Hc].
  - cbn [parse_number].
    destruct (parse_nat s1) as [[n rest]|] eqn:E; [|discriminate].
    intros [= _ <-]. apply parse_nat_length in E. cbn [String.length]. lia.
  - intros H. apply Hplain. rewrite <- H.
    destruct c as [[|] [|] [|] [|] [|] [|] [|] [|]];
      try reflexivity; now contradiction Hc.
Qed.

Lemma expect_length (lit s r : string) (j j' : json) :
  expect lit s j = Some (j', r) -> (String.length r <= String.length s)%nat.
Proof.
  unfold expect. destruct (startsWith s lit); [|discriminate].
  intros [= _ <-]. clear. revert s.
  induction (String.length lit) as [|n IH]; intros s; [apply Nat.le_refl|].
  destruct s as [|c s]; cbn; [lia|]. specialize (IH s). lia.
Qed.

(** Every parser consumes at least one character. *)
Lemma parse_progress (fuel : nat) :
  (forall s j r, parse_value fuel s = Some (j, r) ->
                 (String.length r < String.length s)%nat) /\
  (forall s l r, parse_elements fuel s = Some (l, r) ->
                 (String.length r < String.length s)%nat) /\
  (forall s m r, parse_members fuel s = Some (m, r) ->
                 (String.length r < String.length s)%nat).
Proof.
  induction fuel as [|fuel (IHv & IHe & IHm)];
    [repeat split; intros; discriminate|].
  split; [|split].
  - intros s j r. cbn [parse_value].
    destruct (skip_ws s) as [|c s1] eqn:Hs; [discriminate|].
    apply skip_ws_cons in Hs.
    destruct (N_of_ascii c =? 110)%N;
      [intros H; apply expect_length in H; lia|].
    destruct (N_of_ascii c =? 116)%N;
      [intros H; apply expect_length in H; lia|].
    destruct (N_of_ascii c =? 102)%N;
      [intros H; apply expect_length in H; lia|].
    destruct (N_of_ascii c =? 34)%N.
    { destruct (parse_chars s1) as [[x r1]|] eqn:E; [|discriminate].
      apply parse_chars_length in E. intros [= _ <-]. lia. }
    destruct (N_of_ascii c =? 91)%N.
    { destruct (after_char 93 s1) as [r1|] eqn:E.
      - apply after_char_length in E. intros [= _ <-]. lia.
      - destruct (parse_value fuel s1) as [[x r1]|] eqn:Ex; [|discriminate].
        apply IHv in Ex.
        destruct (parse_elements fuel r1) as [[xs r2]|] eqn:Exs;
          [|discriminate].
        apply IHe in Exs. intros [= _ <-]. lia. }
    destruct (N_of_ascii c =? 123)%N.
    { destruct (after_char 125 s1) as [r1|] eqn:E.
      - apply after_char_length in E. intros [= _ <-]. lia.
      - destruct (parse_key s1) as [[k r1]|] eqn:Ek; [|discriminate].
        apply parse_key_length in Ek.
        destruct (parse_value fuel r1) as [[x r2]|] eqn:Ex; [|discriminate].
        apply IHv in Ex.
        destruct (parse_members fuel r2) as [[xs r3]|] eqn:Exs;
          [|discriminate].
        apply IHm in Exs. intros [= _ <-]. lia. }
    intros H. apply parse_number_length in H. cbn [String.length] in H. lia.
  - intros s l r. cbn [parse_elements].
    destruct (after_char 93 s) as [r0|] eqn:E.
    { apply after_char_length in E. now intros [= _ <-]. }
    destruct (after_char 44 s) as [r0|] eqn:E'; [|discriminate].
    apply after_char_length in E'.
    destruct (parse_value fuel r0) as [[x r1]|] eqn:Ex; [|discriminate].
    apply IHv in Ex.
    destruct (parse_elements fuel r1) as [[xs r2]|] eqn:Exs; [|discriminate].
    apply IHe in Exs. intros [= _ <-]. lia.
  - intros s m r. cbn [parse_members].
    destruct (after_char 125 s) as [r0|] eqn:E.
    { apply after_char_length in E. now intros [= _ <-]. }
    destruct (after_char 44 s) as [r0|] eqn:E'; [|discriminate].
    apply after_char_length in E'.
    destruct (parse_key r0) as [[k r1]|] eqn:Ek; [|discriminate].
    apply parse_key_length in Ek.
    destruct (parse_value fuel r1) as [[x r2]|] eqn:Ex; [|discriminate].
    apply IHv in Ex.
    destruct (parse_members fuel r2) as [[xs r3]|] eqn:Exs; [|discriminate].
    apply IHm in Exs. intros [= _ <-]. lia.
Qed.

(** Fuel beyond the length of the text changes nothing. *)
Lemma parse_fuel (fuel : nat) :
  (forall s more, (String.length s <= fuel)%nat ->
                  parse_value (fuel + more) s = parse_value fuel s) /\
  (forall s more, (String.length s <= fuel)%nat ->
                  parse_elements (fuel + more) s = parse_elements fuel s) /\
  (forall s more, (String.length s <= fuel)%nat ->
                  parse_members (fuel + more) s = parse_members fuel s).
Proof.
  induction fuel as [|fuel (IHv & IHe & IHm)].
  - repeat split; intros s more Hlen;
      (destruct s; [|cbn in Hlen; lia]); now destruct more.
  - destruct (parse_progress fuel) as (Pv & Pe & Pm).
    split; [|split]; intros s more Hlen; cbn [Nat.add].
    + cbn [parse_value].
      destruct (skip_ws s) as [|c s1] eqn:Hs; [reflexivity|].
      apply skip_ws_cons in Hs.
      rewrite (IHv s1 more) by lia.
      destruct (parse_value fuel s1) as [[x r1]|] eqn:Ex.
      * apply Pv in Ex. rewrite (IHe r1 more) by lia.
        destruct (parse_key s1) as [[k r2]|] eqn:Ek; [|reflexivity].
        apply parse_key_length in Ek. rewrite (IHv r2 more) by lia.
        destruct (parse_value fuel r2) as [[y r3]|] eqn:Ey; [|reflexivity].
        apply Pv in Ey. now rewrite (IHm r3 more) by lia.
      * destruct (parse_key s1) as [[k r2]|] eqn:Ek; [|reflexivity].
        apply parse_key_length in Ek. rewrite (IHv r2 more) by lia.
        destruct (parse_value fuel r2) as [[y r3]|] eqn:Ey; [|reflexivity].
        apply Pv in Ey. now rewrite (IHm r3 more) by lia.
    + cbn [parse_elements].
      destruct (after_char 93 s) as [r0|]; [reflexivity|].
      destruct (after_char 44 s) as [r0|] eqn:E; [|reflexivity].
      apply after_char_length in E. rewrite (IHv r0 more) by lia.
      destruct (parse_value fuel r0) as [[x r1]|] eqn:Ex; [|reflexivity].
      apply Pv in Ex. now rewrite (IHe r1 more) by lia.
    + cbn [parse_members].
      destruct (after_char 125 s) as [r0|]; [reflexivity|].
      destruct (after_char 44 s) as [r0|] eqn:E; [|reflexivity].
      apply after_char_length in E.
      destruct (parse_key r0) as [[k r1]|] eqn:Ek; [|reflexivity].
      apply parse_key_length in Ek. rewrite (IHv r1 more) by lia.
      destruct (parse_value fuel r1) as [[x r2]|] eqn:Ex; [|reflexivity].
      apply Pv in Ex. now rewrite (IHm r2 more) by lia.
Qed.

(** [parse] gives its text all the fuel a parse can use. *)
Lemma parse_value_fuel (text : string) (more : nat) :
  parse_value (String.length text + more) text
  = parse_value (String.length text) text.
Proof. apply (parse_fuel (String.length text)). apply Nat.le_refl. Qed.

End JSONFacts.

(** ** The underlying store *)

Section StoreFacts.

Lemma lookup_update_same (k v : string) (l : list (string * string)) :
  lookup k (update k v l) = Some v.
Proof.
  induction l as [|[k' v'] l IH]; simpl.
  - now rewrite String.eqb_refl.
  - destruct (String.eqb k k') eqn:E; simpl.
    + now rewrite String.eqb_refl.
    + now rewrite E.
Qed.

Lemma lookup_update_other (k k' v : string) (l : list (string * string)) :
  k' <> k -> lookup k' (update k v l) = lookup k' l.
Proof.
  intros Hne. induction l as [|[k0 v0] l IH]; simpl.
  - destruct (String.eqb_spec k' k); [contradiction | reflexivity].
  - destruct (String.eqb_spec k k0) as [->|Hk]; simpl.
    + destruct (String.eqb_spec k' k0); [contradiction | reflexivity].
    + now rewrite IH.
Qed.

Lemma lookup_delete_same (k : string) (l : list (string * string)) :
  lookup k (delete k l) = None.
Proof.
  induction l as [|[k' v'] l IH]; simpl; [reflexivity|].
  destruct (String.eqb k k') eqn:E; simpl; [exact IH | now rewrite E].
Qed.

Lemma lookup_delete_other (k k' : string) (l : list (string * string)) :
  k' <> k -> lookup k' (delete k l) = lookup k' l.
Proof.
  intros Hne. induction l as [|[k0 v0] l IH]; simpl; [reflexivity|].
  destruct (String.eqb_spec k k0) as [->|Hk]; simpl.
  - destruct (String.eqb_spec k' k0); [contradiction | exact IH].
  - now rewrite IH.
Qed.

Lemma setItem_Ok (st st' : Storage) (k v : string) :
  setItem st k v = Ok st' ->
  available st = true /\ st' = with_items st (update k v (items st)).
Proof.
  unfold setItem. destruct (available st); [|discriminate].
  destruct (usage _ <=? quota st)%nat; [|discriminate].
  now intros [= <-].
Qed.

Lemma removeItem_Ok (st st' : Storage) (k : string) :
  removeItem st k = Ok st' ->
  available st = true /\ st' = with_items st (delete k (items st)).
Proof.
  unfold removeItem. destruct (available st); [|discriminate].
  now intros [= <-].
Qed.

(** The two writing primitives keep the keys of the store distinct. *)
Lemma distinct_keys_update (k v : string) (l : list (string * string)) :
  distinct_keys l = true -> distinct_keys (update k v l) = true.
Proof.
  induction l as [|[k' v'] l IH]; intros Hd; [reflexivity|].
  cbn [distinct_keys] in Hd. destruct (lookup k' l) eqn:Hl; [discriminate|].
  cbn [update]. destruct (String.eqb_spec k k') as [->|Hne].
  - cbn [distinct_keys]. now rewrite Hl.
  - cbn [distinct_keys].
    rewrite (lookup_update_other k k' v l) by congruence.
    rewrite Hl. exact (IH Hd).
Qed.

Lemma distinct_keys_delete (k : string) (l : list (string * string)) :
  distinct_keys l = true -> distinct_keys (delete k l) = true.
Proof.
  induction l as [|[k' v'] l IH]; intros Hd; [reflexivity|].
  cbn [distinct_keys] in Hd. destruct (lookup k' l) eqn:Hl; [discriminate|].
  unfold delete. cbn [filter fst]. fold (delete k l).
  destruct (String.eqb_spec k k') as [->|Hne]; cbn [negb].
  - exact (IH Hd).
  - cbn [distinct_keys].
    rewrite (lookup_delete_other k k' l) by congruence.
    rewrite Hl. exact (IH Hd).
Qed.

Lemma delete_length (k : string) (l : list (string * string)) :
  (List.length (delete k l) <= List.length l)%nat.
Proof. apply filter_length_le. Qed.

End StoreFacts.

(** ** Envelopes *)

Section EnvelopeFacts.

Variable it : StorageItem.

Lemma parseStoredData_envelope :
  parseStoredData (JSON.stringify (item_json it)) = Some (item_json it).
Proof.
  unfold parseStoredData. now rewrite JSONFacts.parse_stringify.
Qed.

Lemma item_value_envelope : item_value (item_json it) = value it.
Proof. reflexivity. Qed.

Lemma isExpired_envelope (now : Z) :
  isExpired now (item_json it)
  = match expiresAt it with
    | Some e => now >? e
    | None => false
    end.
Proof. unfold isExpired. simpl. now destruct (expiresAt it). Qed.

(** The same on any parsed item, by what its [expiresAt] holds. *)
Lemma isExpired_number (now e : Z) (item : json) :
  get_prop "expiresAt" item = Some (JNum e) ->
  isExpired now item = (now >? e).
Proof. intros H. unfold isExpired. now rewrite H. Qed.

Lemma isExpired_absent (now : Z) (item : json) :
  get_prop "expiresAt" item = None \/ get_prop "expiresAt" item = Some JNull ->
  isExpired now item = false.
Proof. intros [H|H]; unfold isExpired; now rewrite H. Qed.

End EnvelopeFacts.

(** What [set] writes, when the write goes through. *)
Lemma set_true (self : StoragePlus) (now : Z) (key : string) (v : json)
  (options : SetOptions) (st : Storage) :
  ret (set self now key v options st) = true ->
  let item :=
    {| value := v;
       expiresAt :=
         match match ttl options with
               | Some t => Some t
               | None => defaultTTL self
               end with
         | Some t => if t =? 0 then None else js_add now t
         | None => None
         end;
       createdAt := now |} in
  available st = true /\
  set self now key v options st
  = Out true
      (with_items st
         (update (getKey self key) (JSON.stringify (item_json item))
            (items st))) [].
Proof.
  unfold set.
  destruct (setItem st _ _) as [st'|e] eqn:E; simpl; [|discriminate].
  intros _. apply setItem_Ok in E as [Hav ->]. now split.
Qed.

(** [get] on a store that holds the envelope of [item] under the key. *)
Lemma get_envelope (self : StoragePlus) (now : Z) (key : string)
  (item : StorageItem) (st : Storage) :
  available st = true ->
  lookup (getKey self key) (items st)
  = Some (JSON.stringify (item_json item)) ->
  get self now key st
  = if match expiresAt item with Some e => now >? e | None => false end
    then Out JNull (with_items st (delete (getKey self key) (items st))) []
    else Out (value item) st [].
Proof.
  intros Hav Hlook. unfold get, getItem, removeItem.
  rewrite Hav, Hlook, parseStoredData_envelope, isExpired_envelope.
  destruct (expiresAt item) as [e|]; [destruct (now >? e)|]; reflexivity.
Qed.

(** Within the safe integers the sum of [set] is exact. *)
Lemma js_add_safe (a b : Z) :
  safe_integer (a + b) = true -> js_add a b = Some (a + b).
Proof.
  unfold safe_integer, js_add, round_to_double. now intros ->.
Qed.

(** ** Claims about single entries *)

(** C1. After [set(k, v, {ttl: t})] with [t > 0] has written the entry,
    [get(k)] at the same instant, and at any instant up to
    [expiresAt = now + t], returns [v] and changes nothing; at any instant
    after [expiresAt] it returns "no value" and the entry is gone from the
    underlying store.  An envelope is expired exactly when [expiresAt] is
    present and the instant of the check is strictly after it.  The
    instant, the ttl and their sum are safe integers, as milliseconds
    are, so that the sum which [set] computes is not rounded. *)
Theorem set_ttl_then_get (self : StoragePlus) (now t : Z) (key : string)
  (v : json) (st : Storage) :
  0 < t ->
  safe_integer now = true ->
  safe_integer t = true ->
  safe_integer (now + t) = true ->
  ret (set self now key v {| ttl := Some t |} st) = true ->
  let st' := store (set self now key v {| ttl := Some t |} st) in
  getItem st' (getKey self key)
  = Ok (Some (JSON.stringify
                (item_json {| value := v; expiresAt := Some (now + t);
                              createdAt := now |}))) /\
  get self now key st' = Out v st' [] /\
  (forall later, later <= now + t -> get self later key st' = Out v st' []) /\
  (forall later, now + t < later ->
     ret (get self later key st') = JNull /\
     getItem (store (get self later key st')) (getKey self key) = Ok None) /\
  (forall (item : StorageItem) (instant : Z),
     isExpired instant (item_json item) = true
     <-> exists e, expiresAt item = Some e /\ e < instant).
Proof.
  intros Ht _ _ Hsum Hset st'. subst st'.
  destruct (set_true _ _ _ _ _ _ Hset) as [Hav ->]. cbn [ttl store].
  destruct (Z.eqb_spec t 0) as [->|_]; [lia|].
  rewrite (js_add_safe now t Hsum).
  set (st' := with_items st _).
  assert (Hlook : lookup (getKey self key) (items st')
                  = Some (JSON.stringify
                            (item_json {| value := v;
                                          expiresAt := Some (now + t);
                                          createdAt := now |})))
    by (unfold st'; cbn [items with_items]; apply lookup_update_same).
  assert (Hav' : available st' = true) by exact Hav.
  assert (Hget : forall later,
             get self later key st'
             = if later >? now + t
               then Out JNull
                      (with_items st' (delete (getKey self key) (items st'))) []
               else Out v st' []).
  { intros later.
    exact (get_envelope self later key
             {| value := v; expiresAt := Some (now + t); createdAt := now |}
             st' Hav' Hlook). }
  split; [|split; [|split; [|split]]].
  - unfold getItem. now rewrite Hav', Hlook.
  - rewrite Hget. destruct (Z.gtb_spec now (now + t)); [lia | reflexivity].
  - intros later Hle. rewrite Hget.
    destruct (Z.gtb_spec later (now + t)); [lia | reflexivity].
  - intros later Hlt. rewrite Hget.
    destruct (Z.gtb_spec later (now + t)); [|lia].
    split; [reflexivity|].
    unfold getItem. cbn [store]. unfold st' at 1.
    cbn [available items with_items]. rewrite Hav.
    now rewrite lookup_delete_same.
  - intros item instant. rewrite isExpired_envelope. split.
    + destruct (expiresAt item) as [e|]; [|discriminate].
      intros H. exists e. split; [reflexivity|].
      destruct (Z.gtb_spec instant e); [lia | discriminate].
    + intros (e & He & Hlt). rewrite He.
      destruct (Z.gtb_spec instant e); [reflexivity | lia].
Qed.

(** The round trip on the payloads of this embedding.  With no per-call
    ttl and no default TTL, [set(k, v)] followed by
    [get(k)], at whatever instant, returns [v]: the envelope goes through
    [JSON.stringify] and [JSON.parse] unchanged. *)
Theorem set_then_get (self : StoragePlus) (now : Z) (key : string)
  (v : json) (st : Storage) :
  defaultTTL self = None ->
  ret (set self now key v {| ttl := None |} st) = true ->
  let st' := store (set self now key v {| ttl := None |} st) in
  forall later, get self later key st' = Out v st' [].
Proof.
  intros Hdef Hset st' later. subst st'.
  destruct (set_true _ _ _ _ _ _ Hset) as [Hav ->]. simpl.
  rewrite Hdef.
  apply (get_envelope self later key
           {| value := v; expiresAt := None; createdAt := now |}).
  - exact Hav.
  - apply lookup_update_same.
Qed.



Lemma set_ttl_then_get_witness :
  let self :=
    {| namespace := "app:"; defaultTTL := None; enableWarnings := true |} in
  let st := {| items := []; quota := 1000; available := true |} in
  let st' := store (set self 100 "y" (JNum 5) {| ttl := Some 1000 |} st) in
  0 < 1000 /\
  ret (set self 100 "y" (JNum 5) {| ttl := Some 1000 |} st) = true /\
  get self 100 "y" st' = Out (JNum 5) st' [] /\
  get self 1100 "y" st' = Out (JNum 5) st' [] /\
  ret (get self 1101 "y" st') = JNull /\
  getItem (store (get self 1101 "y" st')) "app:y" = Ok None.
Proof.
  intros self st st'.
  assert (Ht : 0 < 1000) by lia.
  assert (Hset : ret (set self 100 "y" (JNum 5) {| ttl := Some 1000 |} st)
                 = true) by reflexivity.
  destruct (set_ttl_then_get self 100 1000 "y" (JNum 5) st Ht
              eq_refl eq_refl eq_refl Hset)
    as (_ & Hnow & Hbefore & Hafter & _).
  destruct (Hafter 1101 ltac:(lia)) as [Hnull Hgone].
  refine (conj Ht (conj Hset (conj Hnow
            (conj (Hbefore 1100 _) (conj Hnull Hgone))))).
  lia.
Defined.

Lemma set_then_get_witness :
  let self :=
    {| namespace := "app:"; defaultTTL := None; enableWarnings := true |} in
  let st := {| items := []; quota := 1000; available := true |} in
  let v := JObj [("a", JNum 1)] in
  let st' := store (set self 100 "x" v {| ttl := None |} st) in
  defaultTTL self = None /\
  ret (set self 100 "x" v {| ttl := None |} st) = true /\
  get self 999999 "x" st' = Out v st' [].
Proof.
  intros self st v st'.
  assert (Hdef : defaultTTL self = None) by reflexivity.
  assert (Hset : ret (set self 100 "x" v {| ttl := None |} st) = true)
    by reflexivity.
  exact (conj Hdef (conj Hset
           (set_then_get self 100 "x" v st Hdef Hset 999999))).
Defined.


(** C10. A ttl of 0 gives an entry that does not expire: [set(k, v, {ttl:
    0})] stores an envelope whose [expiresAt] is [null], whatever default
    is configured; that envelope is expired at no instant, and [get] returns
    [v] at every later instant; and a [defaultTTL] of 0 in the options
    builds the same instance as no [defaultTTL]. *)
Theorem zero_ttl_never_expires (self : StoragePlus) (now : Z) (key : string)
  (v : json) (st : Storage) :
  ret (set self now key v {| ttl := Some 0 |} st) = true ->
  let st' := store (set self now key v {| ttl := Some 0 |} st) in
  let item := {| value := v; expiresAt := None; createdAt := now |} in
  getItem st' (getKey self key) = Ok (Some (JSON.stringify (item_json item))) /\
  (forall later, isExpired later (item_json item) = false) /\
  (forall later, get self later key st' = Out v st' []) /\
  (forall st0 ns w,
     new_StoragePlus st0
       {| o_namespace := ns; o_defaultTTL := Some 0; o_enableWarnings := w |}
     = new_StoragePlus st0
         {| o_namespace := ns; o_defaultTTL := None; o_enableWarnings := w |}).
Proof.
  intros Hset st' item. subst st'.
  destruct (set_true _ _ _ _ _ _ Hset) as [Hav E].
  change (set self now key v {| ttl := Some 0 |} st
          = Out true
              (with_items st
                 (update (getKey self key) (JSON.stringify (item_json item))
                    (items st))) []) in E.
  rewrite E. cbn [store].
  assert (Hlook : lookup (getKey self key)
                    (update (getKey self key) (JSON.stringify (item_json item))
                       (items st))
                  = Some (JSON.stringify (item_json item)))
    by apply lookup_update_same.
  split; [|split; [|split]].
  - unfold getItem. cbn [available items with_items]. now rewrite Hav, Hlook.
  - intros later. now rewrite isExpired_envelope.
  - intros later. now apply (get_envelope self later key item).
  - reflexivity.
Qed.

Lemma zero_ttl_never_expires_witness :
  let self :=
    {| namespace := ""; defaultTTL := Some 5000; enableWarnings := true |} in
  let st := {| items := []; quota := 1000; available := true |} in
  let st' := store (set self 100 "k" (JStr "v") {| ttl := Some 0 |} st) in
  ret (set self 100 "k" (JStr "v") {| ttl := Some 0 |} st) = true /\
  get self 1000000 "k" st' = Out (JStr "v") st' [].
Proof.
  intros self st st'.
  assert (Hset : ret (set self 100 "k" (JStr "v") {| ttl := Some 0 |} st)
                 = true) by reflexivity.
  split; [exact Hset|].
  destruct (zero_ttl_never_expires self 100 "k" (JStr "v") st Hset)
    as (_ & _ & Hget & _).
  exact (Hget 1000000).
Defined.

(** ** Loops over the indices of the store *)

Section LoopFacts.

Context {A : Type}.
Implicit Types body : nat -> A -> Storage -> turn A.

(** Two bodies that hand on the same local variable, store and exception
    run the same loop, whatever they print. *)
Lemma for_each_index_agree body1 body2 :
  (forall i a st,
     local (body1 i a st) = local (body2 i a st) /\
     after (body1 i a st) = after (body2 i a st) /\
     raised (body1 i a st) = raised (body2 i a st)) ->
  forall fuel i a st w1 w2,
    local (for_each_index body1 fuel i a st w1)
    = local (for_each_index body2 fuel i a st w2) /\
    after (for_each_index body1 fuel i a st w1)
    = after (for_each_index body2 fuel i a st w2) /\
    raised (for_each_index body1 fuel i a st w1)
    = raised (for_each_index body2 fuel i a st w2).
Proof.
  intros Hbody. induction fuel as [|fuel IH]; intros i a st w1 w2.
  - simpl. auto.
  - cbn [for_each_index].
    destruct (Storage_length st) as [n|e]; [|simpl; auto].
    destruct (i <? n)%nat; [|simpl; auto].
    destruct (Hbody i a st) as (El & Ea & Er).
    rewrite <- Er. destruct (raised (body1 i a st)).
    + simpl. auto.
    + rewrite <- El, <- Ea. apply IH.
Qed.

(** A loop whose body prints nothing prints nothing. *)
Lemma for_each_index_quiet body :
  (forall i a st, printed (body i a st) = []) ->
  forall fuel i a st, printed (for_each_index body fuel i a st []) = [].
Proof.
  intros Hbody. induction fuel as [|fuel IH]; intros i a st.
  - reflexivity.
  - cbn [for_each_index].
    destruct (Storage_length st) as [n|e]; [|reflexivity].
    destruct (i <? n)%nat; [|reflexivity].
    rewrite Hbody. destruct (raised (body i a st)); [reflexivity|].
    apply IH.
Qed.

Lemma skipn_nth_error {B : Type} (l : list B) (i : nat) (x : B) :
  nth_error l i = Some x -> skipn i l = x :: skipn (S i) l.
Proof.
  revert i. induction l as [|y l IH]; intros [|i] H; try discriminate.
  - now injection H as ->.
  - simpl in H. apply IH in H. exact H.
Qed.

(** A body that only reads the entry at its index folds over the
    entries, in enumeration order, and leaves the loop by its guard. *)
Lemma for_each_index_scan body (f : A -> string * string -> A)
  (st : Storage) :
  available st = true ->
  (forall i a kv, nth_error (items st) i = Some kv ->
                  body i a st = Turn (f a kv) st [] None) ->
  forall fuel i a w,
    (List.length (items st) - i < fuel)%nat ->
    for_each_index body fuel i a st w
    = Turn (fold_left f (skipn i (items st)) a) st w None.
Proof.
  intros Hav Hbody. induction fuel as [|fuel IH]; intros i a w Hfuel; [lia|].
  cbn [for_each_index]. unfold Storage_length. rewrite Hav.
  destruct (Nat.ltb_spec i (List.length (items st))) as [Hlt|Hge].
  - destruct (nth_error (items st) i) as [kv|] eqn:Hnth.
    + rewrite (Hbody i a kv Hnth). cbn [raised local after printed].
      rewrite List.app_nil_r, (skipn_nth_error _ _ _ Hnth).
      rewrite IH by lia. reflexivity.
    + apply nth_error_None in Hnth. lia.
  - now rewrite skipn_all2 by lia.
Qed.

Lemma loop_scan body (f : A -> string * string -> A) (a : A)
  (st : Storage) :
  available st = true ->
  (forall i a kv, nth_error (items st) i = Some kv ->
                  body i a st = Turn (f a kv) st [] None) ->
  loop body a st = Turn (fold_left f (items st) a) st [] None.
Proof.
  intros Hav Hbody. unfold loop.
  rewrite (for_each_index_scan body f st Hav Hbody) by lia.
  reflexivity.
Qed.

(** On a store that is not available the guard throws at once. *)
Lemma loop_unavailable body (a : A) (st : Storage) :
  available st = false ->
  loop body a st = Turn a st [] (Some SecurityError).
Proof.
  intros Hav. unfold loop. cbn [for_each_index].
  unfold Storage_length. now rewrite Hav.
Qed.

(** A loop whose body never makes the store longer leaves by its guard:
    fuel beyond what [loop] gives changes nothing. *)
Lemma for_each_index_fuel body :
  (forall i a st,
     (List.length (items (after (body i a st))) <= List.length (items st))%nat) ->
  forall fuel more i a st w,
    (List.length (items st) - i < fuel)%nat ->
    for_each_index body (fuel + more) i a st w
    = for_each_index body fuel i a st w.
Proof.
  intros Hbody. induction fuel as [|fuel IH]; intros more i a st w Hfuel; [lia|].
  cbn [Nat.add for_each_index]. unfold Storage_length.
  destruct (available st); [|reflexivity].
  destruct (Nat.ltb_spec i (List.length (items st))) as [Hlt|Hge];
    [|reflexivity].
  destruct (raised (body i a st)); [reflexivity|].
  apply IH. specialize (Hbody i a st). lia.
Qed.

End LoopFacts.

(** ** Warnings are a side channel *)

Section Warnings.

Variables (ns : string) (d : option Z).

#[local] Notation "'inst' w" :=
  {| namespace := ns; defaultTTL := d; enableWarnings := w |}
  (at level 10, w at level 9, only parsing).

Lemma get_same (w1 w2 : bool) (now : Z) (key : string) (st : Storage) :
  same_effect (get (inst w1) now key st) (get (inst w2) now key st).
Proof.
  unfold same_effect, get, getKey. cbn [namespace].
  destruct (getItem st (ns ++ key)) as [[data|]|e]; cbn; auto.
  destruct (parseStoredData data) as [item|].
  - destruct (isExpired now item); cbn; auto.
    destruct (removeItem st (ns ++ key)); cbn; auto.
  - destruct (removeItem st (ns ++ key)); cbn; auto.
Qed.

Lemma has_same (w1 w2 : bool) (now : Z) (key : string) (st : Storage) :
  same_effect (has (inst w1) now key st) (has (inst w2) now key st).
Proof.
  destruct (get_same w1 w2 now key st) as [Er Es].
  unfold same_effect, has. cbn [ret store]. now rewrite Er, Es.
Qed.

Lemma keys_body_same (w1 w2 : bool) (now : Z) (i : nat)
  (acc : list string) (st : Storage) :
  local (keys_body (inst w1) now i acc st)
  = local (keys_body (inst w2) now i acc st) /\
  after (keys_body (inst w1) now i acc st)
  = after (keys_body (inst w2) now i acc st) /\
  raised (keys_body (inst w1) now i acc st)
  = raised (keys_body (inst w2) now i acc st).
Proof.
  unfold keys_body.
  destruct (Storage_key st i) as [fullKey|e]; [|cbn; auto].
  change (namespaced (inst w2) fullKey) with (namespaced (inst w1) fullKey).
  destruct (namespaced (inst w1) fullKey) as [k|]; [|cbn; auto].
  cbn [namespace].
  destruct (has_same w1 w2 now
              (string_drop (String.length ns) k) st) as [Er Es].
  rewrite <- Er, <- Es.
  destruct (ret (has (inst w1) now _ st)); cbn; auto.
Qed.

Lemma keys_same (w1 w2 : bool) (now : Z) (st : Storage) :
  same_effect (keys (inst w1) now st) (keys (inst w2) now st).
Proof.
  unfold same_effect, keys, loop. cbn [ret store].
  destruct (for_each_index_agree _ _ (keys_body_same w1 w2 now)
              (S (List.length (items st))) O [] st [] []) as (El & Ea & _).
  now split.
Qed.

Lemma perform_same (w1 w2 : bool) (now : Z) (c : call) (st : Storage) :
  same_effect (perform (inst w1) now c st) (perform (inst w2) now c st).
Proof.
  destruct c as [key v options|key|key|key| | | | |key];
    unfold perform, map_ret, same_effect; cbn [ret store].
  - unfold set, getKey. cbn [namespace defaultTTL].
    destruct (setItem st _ _); cbn; auto.
  - destruct (get_same w1 w2 now key st) as [-> ->]. auto.
  - destruct (has_same w1 w2 now key st) as [-> ->]. auto.
  - unfold remove, getKey. cbn [namespace].
    destruct (removeItem st _); cbn; auto.
  - unfold clear.
    change (clear_body (inst w2)) with (clear_body (inst w1)).
    destruct (raised (loop (clear_body (inst w1)) [] st)); cbn; auto.
    destruct (raised (remove_each _ _ _)); cbn; auto.
  - destruct (keys_same w1 w2 now st) as [-> ->]. auto.
  - unfold size.
    change (size_body (inst w2)) with (size_body (inst w1)). cbn. auto.
  - unfold cleanup.
    change (cleanup_body (inst w2) now) with (cleanup_body (inst w1) now).
    destruct (raised (loop (cleanup_body (inst w1) now) [] st)); cbn; auto.
    destruct (raised (remove_each _ _ _)); cbn; auto.
  - unfold getInfo, getKey. cbn [namespace].
    destruct (getItem st (ns ++ key)) as [[data|]|e]; cbn; auto.
    destruct (parseStoredData data) as [item|]; cbn; auto.
    destruct (isExpired now item); cbn; auto.
    destruct (removeItem st (ns ++ key)); cbn; auto.
Qed.

Lemma get_quiet (now : Z) (key : string) (st : Storage) :
  warned (get (inst false) now key st) = [].
Proof.
  unfold get.
  destruct (getItem st _) as [[data|]|e]; cbn; auto.
  destruct (parseStoredData data) as [item|].
  - destruct (isExpired now item); cbn; auto.
    destruct (removeItem st _); cbn; auto.
  - destruct (removeItem st _); cbn; auto.
Qed.

Lemma keys_body_quiet (now : Z) (i : nat) (acc : list string)
  (st : Storage) :
  printed (keys_body (inst false) now i acc st) = [].
Proof.
  unfold keys_body.
  destruct (Storage_key st i) as [fullKey|e]; [|reflexivity].
  destruct (namespaced _ fullKey) as [k|]; [|reflexivity].
  destruct (ret (has _ now _ st)); cbn [printed]; unfold has;
    cbn [warned]; apply get_quiet.
Qed.

Lemma perform_quiet (now : Z) (c : call) (st : Storage) :
  warned (perform (inst false) now c st) = [].
Proof.
  destruct c as [key v options|key|key|key| | | | |key];
    unfold perform, map_ret; cbn [warned].
  - unfold set. destruct (setItem st _ _); reflexivity.
  - apply get_quiet.
  - unfold has. cbn [warned]. apply get_quiet.
  - unfold remove. destruct (removeItem st _); reflexivity.
  - unfold clear. destruct (raised (loop _ [] st)); [reflexivity|].
    destruct (raised (remove_each _ _ _)); reflexivity.
  - unfold keys, loop. cbn [warned].
    rewrite (for_each_index_quiet _ (keys_body_quiet now)).
    destruct (raised _); reflexivity.
  - unfold size. cbn [warned]. destruct (raised _); reflexivity.
  - unfold cleanup. destruct (raised (loop _ [] st)); [reflexivity|].
    destruct (raised (remove_each _ _ _)); reflexivity.
  - unfold getInfo.
    destruct (getItem st _) as [[data|]|e]; cbn; auto.
    destruct (parseStoredData data) as [item|]; cbn; auto.
    destruct (isExpired now item); cbn; auto.
    destruct (removeItem st _); cbn; auto.
Qed.

End Warnings.

(** C9. For each of the nine operations, every store, instant and
    argument: two instances that differ only in [enableWarnings] return the
    same value and leave the same store; the constructor's probe leaves the
    same store too; and with [enableWarnings] off nothing is printed. *)
Theorem warnings_do_not_interfere (ns : string) (d : option Z)
  (w1 w2 : bool) (now : Z) (c : call) (st : Storage) :
  let self1 := {| namespace := ns; defaultTTL := d; enableWarnings := w1 |} in
  let self2 := {| namespace := ns; defaultTTL := d; enableWarnings := w2 |} in
  let quiet := {| namespace := ns; defaultTTL := d; enableWarnings := false |} in
  ret (perform self1 now c st) = ret (perform self2 now c st) /\
  store (perform self1 now c st) = store (perform self2 now c st) /\
  store (testStorage self1 st) = store (testStorage self2 st) /\
  warned (perform quiet now c st) = [] /\
  warned (testStorage quiet st) = [].
Proof.
  intros self1 self2 quiet.
  destruct (perform_same ns d w1 w2 now c st) as [Er Es].
  split; [exact Er|]. split; [exact Es|]. split; [|split].
  - unfold testStorage. cbn [namespace].
    destruct (setItem st _ _) as [st1|e]; [|reflexivity].
    destruct (removeItem st1 _); reflexivity.
  - apply perform_quiet.
  - unfold testStorage.
    destruct (setItem st _ _) as [st1|e]; [|reflexivity].
    destruct (removeItem st1 _); reflexivity.
Qed.

(** ** Bulk operations *)

Section BulkFacts.

Variable self : StoragePlus.

Lemma namespaced_owned (k : string) :
  namespaced self (Some k) = if owned self k then Some k else None.
Proof. destruct k as [|c r]; reflexivity. Qed.

Lemma Storage_key_nth (st : Storage) (i : nat) (kv : string * string) :
  available st = true ->
  nth_error (items st) i = Some kv ->
  Storage_key st i = Ok (Some (fst kv)).
Proof. intros Hav Hnth. unfold Storage_key. now rewrite Hav, Hnth. Qed.

Lemma remove_each_available (ks : list string) (st : Storage) (n : nat) :
  available st = true ->
  remove_each ks st n
  = Turn (n + List.length ks)%nat
      (with_items st (fold_left (fun l k => delete k l) ks (items st)))
      [] None.
Proof.
  revert st n. induction ks as [|k ks IH]; intros st n Hav.
  - cbn. rewrite Nat.add_0_r. now destruct st; cbn in *; subst.
  - cbn [remove_each]. unfold removeItem. rewrite Hav.
    rewrite IH by exact Hav. cbn. f_equal. lia.
Qed.

Lemma filter_filter {B : Type} (p q : B -> bool) (l : list B) :
  filter p (filter q l) = filter (fun x => q x && p x) l.
Proof.
  induction l as [|x l IH]; [reflexivity|]. cbn.
  destruct (q x); cbn; [destruct (p x)|]; now rewrite IH.
Qed.

Lemma fold_delete (ks : list string) (l : list (string * string)) :
  fold_left (fun l k => delete k l) ks l
  = filter (fun kv => negb (mem (fst kv) ks)) l.
Proof.
  revert l. induction ks as [|k ks IH]; intros l; cbn.
  - induction l as [|x l IHl]; [reflexivity | cbn; now rewrite <- IHl].
  - rewrite IH. unfold delete. rewrite filter_filter.
    apply filter_ext. intros [k' v]. cbn.
    rewrite (String.eqb_sym k' k). now rewrite negb_orb.
Qed.

(** Sweeping the keys picked by a test on the key removes exactly the
    entries that pass the test. *)
Lemma sweep_picked (G : string -> bool) (l : list (string * string)) :
  filter
    (fun kv => negb (mem (fst kv) (map fst (filter (fun kv => G (fst kv)) l))))
    l
  = filter (fun kv => negb (G (fst kv))) l.
Proof.
  apply filter_ext_in. intros [k v] Hin. cbn. f_equal.
  destruct (G k) eqn:HG.
  - apply existsb_exists. exists k. split; [|apply String.eqb_refl].
    apply in_map_iff. exists (k, v). split; [reflexivity|].
    apply filter_In. now split.
  - apply not_true_is_false. intros H.
    apply existsb_exists in H as (k' & Hk' & Heq).
    apply String.eqb_eq in Heq. subst k'.
    apply in_map_iff in Hk' as ([k2 v2] & E & H2). cbn in E. subst k2.
    apply filter_In in H2 as [_ H2]. cbn in H2. congruence.
Qed.

Lemma fold_collect (G : string -> bool) (l : list (string * string))
  (ks : list string) :
  fold_left (fun ks kv => if G (fst kv) then ks ++ [fst kv] else ks) l ks
  = ks ++ map fst (filter (fun kv => G (fst kv)) l).
Proof.
  revert ks. induction l as [|[k v] l IH]; intros ks; cbn.
  - now rewrite List.app_nil_r.
  - rewrite IH. destruct (G k); cbn; [|reflexivity].
    now rewrite <- app_assoc.
Qed.

Lemma distinct_keys_lookup (l : list (string * string)) (k v : string) :
  distinct_keys l = true -> In (k, v) l -> lookup k l = Some v.
Proof.
  induction l as [|[k' v'] l IH]; intros Hd Hin; [contradiction|].
  cbn in Hd. destruct (lookup k' l) eqn:Hl; [discriminate|].
  destruct Hin as [E|Hin].
  - injection E as -> ->. cbn. now rewrite String.eqb_refl.
  - cbn. destruct (String.eqb_spec k k') as [->|_].
    + rewrite (IH Hd Hin) in Hl. discriminate.
    + exact (IH Hd Hin).
Qed.

(** *** [clear] *)

Lemma clear_pass (st : Storage) :
  available st = true ->
  loop (clear_body self) [] st
  = Turn (map fst (filter (fun kv => owned self (fst kv)) (items st)))
      st [] None.
Proof.
  intros Hav.
  rewrite (loop_scan (clear_body self)
             (fun ks kv => if owned self (fst kv) then ks ++ [fst kv] else ks)
             [] st Hav).
  - now rewrite fold_collect.
  - intros i ks kv Hnth. unfold clear_body.
    rewrite (Storage_key_nth st i kv Hav Hnth), namespaced_owned.
    now destruct (owned self (fst kv)).
Qed.

(** *** [cleanup] *)

Lemma cleanup_pass (now : Z) (st : Storage) :
  available st = true ->
  loop (cleanup_body self now) [] st
  = Turn (map fst (filter (fun kv => cleanup_picks self now st (fst kv)) (items st)))
      st [] None.
Proof.
  intros Hav.
  rewrite (loop_scan (cleanup_body self now)
             (fun ks kv =>
                if cleanup_picks self now st (fst kv) then ks ++ [fst kv] else ks)
             [] st Hav).
  - now rewrite fold_collect.
  - intros i ks kv Hnth. unfold cleanup_body, cleanup_picks.
    rewrite (Storage_key_nth st i kv Hav Hnth), namespaced_owned.
    destruct (owned self (fst kv)); [|reflexivity].
    unfold getItem. rewrite Hav. cbn [andb].
    destruct (lookup (fst kv) (items st)) as [[|c r]|]; try reflexivity.
    unfold stale.
    destruct (parseStoredData (String c r)) as [item|]; [|reflexivity].
    now destruct (isExpired now item).
Qed.

(** *** [size] *)

Lemma fold_sum (h : string -> nat) (l : list (string * string)) (n : nat) :
  fold_left (fun n kv => (n + h (fst kv))%nat) l n
  = (n + list_sum (map (fun kv => h (fst kv)) l))%nat.
Proof.
  revert n. induction l as [|[k v] l IH]; intros n.
  - simpl. lia.
  - cbn [fold_left map list_sum fold_right fst]. rewrite IH.
    unfold list_sum. lia.
Qed.

Lemma size_pass (st : Storage) :
  available st = true ->
  loop (size_body self) O st
  = Turn (list_sum (map (fun kv => size_counts self st (fst kv)) (items st)))
      st [] None.
Proof.
  intros Hav.
  rewrite (loop_scan (size_body self)
             (fun n kv => (n + size_counts self st (fst kv))%nat) O st Hav).
  - now rewrite fold_sum.
  - intros i n kv Hnth. unfold size_body, size_counts.
    rewrite (Storage_key_nth st i kv Hav Hnth), namespaced_owned.
    destruct (owned self (fst kv)); [|now rewrite Nat.add_0_r].
    unfold getItem. rewrite Hav.
    destruct (lookup (fst kv) (items st)) as [[|c r]|];
      try reflexivity; now rewrite Nat.add_0_r.
Qed.

End BulkFacts.

(** ** Claims about the bulk operations *)

(** X24.  On an available store, the first pass of [clear]
    collects, without touching the store, the full keys that are not empty
    and start with the namespace prefix; the second pass deletes exactly
    the entries under those keys; every other entry, those of other
    namespaces among them, stays as it was and where it was; and [clear]
    returns [true] and prints nothing. *)
Theorem clear_removes_owned (self : StoragePlus) (st : Storage) :
  available st = true ->
  loop (clear_body self) [] st
  = Turn (map fst (filter (fun kv => owned self (fst kv)) (items st)))
      st [] None /\
  clear self st
  = Out true
      (with_items st
         (filter (fun kv => negb (owned self (fst kv))) (items st))) [].
Proof.
  intros Hav. split; [exact (clear_pass self st Hav)|].
  unfold clear. rewrite (clear_pass self st Hav). cbn [raised local after].
  rewrite (remove_each_available _ st O Hav). cbn [raised after].
  now rewrite fold_delete, (sweep_picked (owned self)).
Qed.

Lemma clear_removes_owned_witness :
  let self :=
    {| namespace := "a:"; defaultTTL := None; enableWarnings := true |} in
  let st :=
    {| items := [("a:x", "1"); ("b:y", "2"); ("a:z", "3"); ("other", "4")];
       quota := 1000; available := true |} in
  available st = true /\
  clear self st = Out true (with_items st [("b:y", "2"); ("other", "4")]) [].
Proof.
  intros self st.
  assert (Hav : available st = true) by reflexivity.
  exact (conj Hav (proj2 (clear_removes_owned self st Hav))).
Defined.

(** C7.  The code at a failing input: on the default instance (empty
    prefix) the entry that [set("", 1)] has written has a full key that
    starts with the prefix, and [clear] returns [true] and leaves it in
    the store.  The test [key &&] of the loop, there for the [null] of
    [storage.key(i)], is also false for the empty string. *)
Lemma clear_keeps_empty_key :
  let self :=
    {| namespace := ""; defaultTTL := None; enableWarnings := true |} in
  let empty := {| items := []; quota := 1000; available := true |} in
  let st := store (set self 0 "" (JNum 1) {| ttl := None |} empty) in
  startsWith "" (namespace self) = true /\
  getItem st "" <> Ok None /\
  clear self st = Out true st [].
Proof.
  intros self empty st. split; [reflexivity|]. split; [discriminate|].
  reflexivity.
Qed.

(** What [cleanup] does on the texts of this embedding.  On an available
    store with distinct keys, [cleanup] removes exactly the entries whose full key is not empty and starts with
    the namespace prefix and whose text is a well-formed, expired envelope;
    it returns their number; every other entry, unexpired ones and corrupt
    ones among them, stays as it was and where it was. *)
Theorem cleanup_removes_expired (self : StoragePlus) (now : Z)
  (st : Storage) :
  available st = true ->
  distinct_keys (items st) = true ->
  cleanup self now st
  = Out (List.length (filter (expired_entry self now) (items st)))
      (with_items st
         (filter (fun kv => negb (expired_entry self now kv)) (items st))) [].
Proof.
  intros Hav Hd.
  assert (Hpick : forall kv, In kv (items st) ->
             cleanup_picks self now st (fst kv) = expired_entry self now kv).
  { intros [k v] Hin. unfold cleanup_picks, expired_entry. cbn [fst snd].
    now rewrite (distinct_keys_lookup _ _ _ Hd Hin). }
  unfold cleanup. rewrite (cleanup_pass self now st Hav).
  cbn [raised local after].
  rewrite (remove_each_available _ st O Hav). cbn [raised local after].
  rewrite fold_delete, (sweep_picked (cleanup_picks self now st)).
  rewrite length_map.
  rewrite (filter_ext_in _ (expired_entry self now) (items st) Hpick).
  f_equal. f_equal. apply filter_ext_in. intros kv Hin. now rewrite Hpick.
Qed.

Lemma cleanup_removes_expired_witness :
  let self :=
    {| namespace := "a:"; defaultTTL := None; enableWarnings := true |} in
  let empty := {| items := []; quota := 1000; available := true |} in
  let st1 := store (set self 0 "old" (JNum 1) {| ttl := Some 10 |} empty) in
  let st2 := store (set self 0 "new" (JNum 2) {| ttl := None |} st1) in
  let st := with_items st2 (items st2 ++ [("a:bad", "corrupt"); ("b:x", "?")]) in
  available st = true /\
  distinct_keys (items st) = true /\
  ret (cleanup self 100 st) = 1%nat /\
  map fst (items (store (cleanup self 100 st))) = ["a:new"; "a:bad"; "b:x"].
Proof.
  intros self empty st1 st2 st.
  assert (Hav : available st = true) by reflexivity.
  assert (Hd : distinct_keys (items st) = true) by reflexivity.
  refine (conj Hav (conj Hd _)).
  rewrite (cleanup_removes_expired self 100 st Hav Hd).
  split; reflexivity.
Defined.

(** C6.  The code at a failing input: on the default instance the entry
    that [set("", 1, {ttl: 10})] has written is well-formed, expired at
    100 and under the (empty) prefix; [cleanup] at 100 returns 0 and
    leaves it.  The test [fullKey &&] of the loop, there for the [null] of
    [storage.key(i)], is also false for the empty string. *)
Lemma cleanup_keeps_empty_key :
  let self :=
    {| namespace := ""; defaultTTL := None; enableWarnings := true |} in
  let empty := {| items := []; quota := 1000; available := true |} in
  let st := store (set self 0 "" (JNum 1) {| ttl := Some 10 |} empty) in
  (exists data, items st = [("", data)] /\ stale 100 data = true) /\
  startsWith "" (namespace self) = true /\
  cleanup self 100 st = Out O st [].
Proof.
  intros self empty st. split; [|split; reflexivity].
  eexists. split; reflexivity.
Qed.

(** X25.  On an available store with distinct keys, [size]
    returns the sum of [length(full key) + length(raw value)] over the
    entries whose full key is not empty and starts with the namespace
    prefix and whose raw value is not empty, expired and corrupt ones
    among them, and it leaves the store as it was. *)
Theorem size_sums_owned (self : StoragePlus) (st : Storage) :
  available st = true ->
  distinct_keys (items st) = true ->
  size self st
  = Out (list_sum (map entry_size (filter (counted_entry self) (items st))))
      st [].
Proof.
  intros Hav Hd. unfold size. rewrite (size_pass self st Hav).
  cbn [raised local after]. f_equal.
  assert (Hcount : forall l, (forall kv, In kv l -> In kv (items st)) ->
            list_sum (map (fun kv => size_counts self st (fst kv)) l)
            = list_sum (map entry_size (filter (counted_entry self) l))).
  { induction l as [|[k v] l IH]; intros Hsub; [reflexivity|].
    cbn [map filter list_sum fold_right fst].
    assert (Hin : In (k, v) (items st)) by (apply Hsub; now left).
    unfold list_sum in IH. rewrite IH by (intros kv H; apply Hsub; now right).
    unfold size_counts, counted_entry. cbn [fst snd].
    rewrite (distinct_keys_lookup _ _ _ Hd Hin).
    destruct (owned self k); [|reflexivity].
    destruct v as [|c r]; reflexivity. }
  apply Hcount. auto.
Qed.

Lemma size_sums_owned_witness :
  let self :=
    {| namespace := "a:"; defaultTTL := None; enableWarnings := true |} in
  let st :=
    {| items := [("a:x", "12345"); ("b:y", "2"); ("a:z", "not json")];
       quota := 1000; available := true |} in
  available st = true /\
  distinct_keys (items st) = true /\
  size self st = Out 19%nat st [].
Proof.
  intros self st.
  assert (Hav : available st = true) by reflexivity.
  assert (Hd : distinct_keys (items st) = true) by reflexivity.
  exact (conj Hav (conj Hd (size_sums_owned self st Hav Hd))).
Defined.

(** C8.  The code at two failing inputs: an entry with an empty raw value
    adds nothing where the stated sum adds the length of its key, and on
    the default instance the entry that [set("", 1)] has written adds
    nothing where the stated sum adds the length of its text.  The tests
    [key &&] and [if (value)], there for the [null] of [storage.key(i)]
    and of [getItem], are also false for the empty string. *)
Lemma size_skips_empty :
  let self :=
    {| namespace := ""; defaultTTL := None; enableWarnings := true |} in
  let empty := {| items := []; quota := 1000; available := true |} in
  let st1 := {| items := [("key", "")]; quota := 1000; available := true |} in
  let st2 := store (set self 0 "" (JNum 1) {| ttl := None |} empty) in
  (ret (size self st1) = 0%nat /\ size_as_specified self (items st1) = 3%nat) /\
  (ret (size self st2) = 0%nat /\ size_as_specified self (items st2) = 42%nat).
Proof. intros self empty st1 st2. repeat split. Qed.

(** ** [get], [has] and the loop of [keys] *)

Section KeysFacts.

Variables (self : StoragePlus) (now : Z).

Lemma get_available (key : string) (st : Storage) :
  available st = true ->
  get self now key st
  = match lookup (getKey self key) (items st) with
    | None => Out JNull st []
    | Some data =>
        if is_none (parseStoredData data) || stale now data
        then Out JNull
               (with_items st (delete (getKey self key) (items st))) []
        else Out (match parseStoredData data with
                  | Some item => item_value item
                  | None => JNull
                  end) st []
    end.
Proof.
  intros Hav. unfold get, getItem, removeItem, stale, is_none.
  rewrite Hav.
  destruct (lookup (getKey self key) (items st)) as [data|]; [|reflexivity].
  destruct (parseStoredData data) as [item|]; [|reflexivity].
  now destruct (isExpired now item).
Qed.

Lemma get_store (key : string) (st : Storage) :
  store (get self now key st) = st \/
  store (get self now key st)
  = with_items st (delete (getKey self key) (items st)).
Proof.
  unfold get, removeItem.
  destruct (getItem st _) as [[data|]|e]; cbn; auto.
  destruct (parseStoredData data) as [item|].
  - destruct (isExpired now item); cbn; auto.
    destruct (available st); cbn; auto.
  - destruct (available st); cbn; auto.
Qed.

Lemma has_true (key : string) (st : Storage) :
  ret (has self now key st) = true ->
  names_live self now (items st) key /\ store (has self now key st) = st.
Proof.
  unfold has, get, getItem, names_live, live, getKey. cbn [ret store].
  destruct (available st); [|discriminate].
  destruct (lookup (namespace self ++ key) (items st)) as [data|];
    [|discriminate].
  destruct (parseStoredData data) as [item|] eqn:Hparse.
  - destruct (isExpired now item) eqn:Hexp.
    + unfold removeItem. destruct (available st); discriminate.
    + cbn. intros H. split; [|reflexivity].
      exists data. rewrite Hparse, Hexp. now split.
  - unfold removeItem. destruct (available st); discriminate.
Qed.

Lemma substore_refl (l : list (string * string)) : substore l l.
Proof. intros k. now right. Qed.

Lemma substore_delete (k : string) (l' l : list (string * string)) :
  substore l' l -> substore (delete k l') l.
Proof.
  intros H k'. destruct (String.eqb_spec k' k) as [->|Hne].
  - left. apply lookup_delete_same.
  - rewrite (lookup_delete_other _ _ _ Hne). apply H.
Qed.

(** A property of the local variable and the store that every turn
    keeps holds when the loop is left. *)
Lemma for_each_index_invariant {A : Type}
  (body : nat -> A -> Storage -> turn A) (P : A -> Storage -> Prop) :
  (forall i a st, P a st -> P (local (body i a st)) (after (body i a st))) ->
  forall fuel i a st w,
    P a st ->
    P (local (for_each_index body fuel i a st w))
      (after (for_each_index body fuel i a st w)).
Proof.
  intros Hbody. induction fuel as [|fuel IH]; intros i a st w HP.
  - exact HP.
  - cbn [for_each_index].
    destruct (Storage_length st) as [n|e]; [|exact HP].
    destruct (i <? n)%nat; [|exact HP].
    specialize (Hbody i a st HP).
    destruct (raised (body i a st)); [exact Hbody|].
    now apply IH.
Qed.

(** What [keys] returns names live entries of the store it started
    from, and what it leaves holds only entries of that store. *)
Lemma keys_sound (st : Storage) :
  Forall (names_live self now (items st)) (ret (keys self now st)) /\
  substore (items (store (keys self now st))) (items st).
Proof.
  unfold keys, loop. cbn [ret store].
  pose (P := fun (acc : list string) (st' : Storage) =>
               Forall (names_live self now (items st)) acc /\
               substore (items st') (items st)).
  apply (for_each_index_invariant (keys_body self now) P);
    [|split; [constructor | apply substore_refl]].
  intros i acc st' [Hacc Hsub]. unfold keys_body.
  destruct (Storage_key st' i) as [fullKey|e]; [|now split].
  destruct (namespaced self fullKey) as [k|]; [|now split].
  set (key := string_drop (String.length (namespace self)) k).
  destruct (ret (has self now key st')) eqn:Hhas; cbn [local after].
  - destruct (has_true key st' Hhas) as [(data & Hlook & Hlive) ->].
    split; [|exact Hsub].
    apply Forall_app. split; [exact Hacc|]. constructor; [|constructor].
    exists data. split; [|exact Hlive].
    destruct (Hsub (namespace self ++ key)%string) as [H|H]; congruence.
  - split; [exact Hacc|]. unfold has. cbn [store].
    destruct (get_store key st') as [-> | ->]; [exact Hsub|].
    now apply substore_delete.
Qed.

(** The turn of the loop of [keys] that reads an entry, under the
    namespace, whose text is corrupt or expired deletes the entry and
    adds nothing to the result. *)
Lemma keys_body_deletes (key data : string) (i : nat)
  (acc : list string) (st : Storage) :
  available st = true ->
  Storage_key st i = Ok (Some (getKey self key)) ->
  owned self (getKey self key) = true ->
  lookup (getKey self key) (items st) = Some data ->
  parseStoredData data = None \/ stale now data = true ->
  keys_body self now i acc st
  = Turn acc (with_items st (delete (getKey self key) (items st))) [] None.
Proof.
  intros Hav Hkey Hown Hlook Hbad. unfold keys_body.
  rewrite Hkey, namespaced_owned, Hown. cbv zeta.
  assert (Hdrop : string_drop (String.length (namespace self))
                    (getKey self key) = key)
    by (unfold getKey; apply string_drop_append).
  rewrite Hdrop. unfold has. rewrite (get_available key st Hav), Hlook.
  assert (E : is_none (parseStoredData data) || stale now data = true).
  { destruct Hbad as [-> | ->]; [reflexivity | apply orb_true_r]. }
  rewrite E. reflexivity.
Qed.

(** The four loops of the class leave by their guard. *)
Lemma loops_leave_by_guard (st : Storage) (more : nat) :
  let fuel := S (List.length (items st)) in
  for_each_index (clear_body self) (fuel + more) O [] st []
  = loop (clear_body self) [] st /\
  for_each_index (keys_body self now) (fuel + more) O [] st []
  = loop (keys_body self now) [] st /\
  for_each_index (size_body self) (fuel + more) O O st []
  = loop (size_body self) O st /\
  for_each_index (cleanup_body self now) (fuel + more) O [] st []
  = loop (cleanup_body self now) [] st.
Proof.
  intros fuel. unfold loop. subst fuel.
  split; [|split; [|split]]; apply for_each_index_fuel; try lia;
    intros i a st'.
  - unfold clear_body. destruct (Storage_key st' i); [|apply Nat.le_refl].
    destruct (namespaced self _); apply Nat.le_refl.
  - unfold keys_body. destruct (Storage_key st' i); [|apply Nat.le_refl].
    destruct (namespaced self _) as [k|]; [|apply Nat.le_refl].
    assert (H : (List.length (items (store (has self now
                   (string_drop (String.length (namespace self)) k) st')))
                 <= List.length (items st'))%nat).
    { unfold has. cbn [store].
      destruct (get_store (string_drop (String.length (namespace self)) k) st')
        as [-> | ->]; [apply Nat.le_refl | apply delete_length]. }
    cbv zeta. now destruct (ret (has self now _ st')).
  - unfold size_body. destruct (Storage_key st' i); [|apply Nat.le_refl].
    destruct (namespaced self _) as [k|]; [|apply Nat.le_refl].
    destruct (getItem st' k) as [[[|c r]|]|]; apply Nat.le_refl.
  - unfold cleanup_body. destruct (Storage_key st' i); [|apply Nat.le_refl].
    destruct (namespaced self _) as [k|]; [|apply Nat.le_refl].
    destruct (getItem st' k) as [[[|c r]|]|]; try apply Nat.le_refl.
    destruct (parseStoredData _) as [item|]; [|apply Nat.le_refl].
    destruct (isExpired now item); apply Nat.le_refl.
Qed.

End KeysFacts.

(** ** Claims about corrupt entries and about [keys] *)




(** C3.  The code at a failing input, a store where an expired entry is
    enumerated before a live one:
    at 100 the store holds, in this order, [app:a] (expired at 10) and
    [app:b] (no expiry).  [keys()] deletes [app:a] at index 0, the length
    drops to 1, the guard [1 < 1] ends the loop, and [b] is never looked
    at: the result is empty although [has("b")] is true before and after,
    and a second call returns [["b"]]. *)
Lemma keys_skips_after_removal :
  let self :=
    {| namespace := "app:"; defaultTTL := None; enableWarnings := true |} in
  let a :=
    JSON.stringify
      (item_json {| value := JNum 1; expiresAt := Some 10; createdAt := 0 |}) in
  let b :=
    JSON.stringify
      (item_json {| value := JNum 2; expiresAt := None; createdAt := 0 |}) in
  let st :=
    {| items := [("app:a", a); ("app:b", b)]; quota := 1000;
       available := true |} in
  ret (has self 100 "b" st) = true /\
  ret (keys self 100 st) = [] /\
  items (store (keys self 100 st)) = [("app:b", b)] /\
  ret (has self 100 "b" (store (keys self 100 st))) = true /\
  ret (keys self 100 (store (keys self 100 st))) = ["b"].
Proof. intros self a b st. repeat split. Qed.

Section KeysClaims.

Variables (self : StoragePlus) (now : Z).

Lemma startsWith_drop (k p : string) :
  startsWith k p = true -> (p ++ string_drop (String.length p) k)%string = k.
Proof.
  revert k. induction p as [|a p IH]; intros k H; [reflexivity|].
  destruct k as [|b k]; [discriminate|]. cbn in H.
  apply andb_true_iff in H as [Hab Hk].
  apply Ascii.eqb_eq in Hab. subst b. cbn. now rewrite (IH k Hk).
Qed.

Lemma owned_full_key (k : string) :
  owned self k = true -> getKey self (user_key self k) = k.
Proof.
  intros H. unfold getKey, user_key. apply startsWith_drop.
  destruct k; [discriminate | exact H].
Qed.

(** One turn of the loop of [keys] on a store where the entry read is,
    if under the namespace, neither corrupt nor expired. *)
Lemma keys_body_clean (i : nat) (acc : list string) (st : Storage)
  (kv : string * string) :
  available st = true ->
  nth_error (items st) i = Some kv ->
  lookup (fst kv) (items st) = Some (snd kv) ->
  (owned self (fst kv) = true ->
   is_none (parseStoredData (snd kv)) = false /\ stale now (snd kv) = false) ->
  keys_body self now i acc st
  = Turn (if listed_entry self now kv
          then acc ++ [user_key self (fst kv)] else acc) st [] None.
Proof.
  intros Hav Hnth Hlook Hclean. unfold keys_body, listed_entry.
  rewrite (Storage_key_nth st i kv Hav Hnth), namespaced_owned.
  destruct (owned self (fst kv)) eqn:Hown; [|reflexivity].
  destruct (Hclean eq_refl) as [Hparse Hstale]. cbv zeta.
  fold (user_key self (fst kv)). unfold has.
  rewrite (get_available self now _ st Hav), (owned_full_key _ Hown), Hlook.
  rewrite Hparse, Hstale. cbn [orb ret store warned].
  unfold live, stale, is_none in *.
  destruct (parseStoredData (snd kv)) as [item|]; [|discriminate].
  rewrite Hstale. cbn [negb andb].
  now destruct (is_null (item_value item)).
Qed.

Lemma fold_listed (P : string * string -> bool) (g : string -> string)
  (l : list (string * string)) (acc : list string) :
  fold_left (fun acc kv => if P kv then acc ++ [g (fst kv)] else acc) l acc
  = acc ++ map (fun kv => g (fst kv)) (filter P l).
Proof.
  revert acc. induction l as [|kv l IH]; intros acc; cbn.
  - now rewrite List.app_nil_r.
  - rewrite IH. destruct (P kv); cbn; [|reflexivity].
    now rewrite <- app_assoc.
Qed.

(** What [keys] does on the texts of this embedding.  [keys()] returns
    only user-facing keys (the
    namespace prefix stripped) of entries that [has] accepts at the time
    of the call: under the prefix, well-formed, unexpired, with a payload
    other than [null]; what it leaves in the store are entries of the
    store it started from; the turn of its loop that reads an entry
    under the prefix (full key not empty) that is corrupt or expired
    deletes that entry; and on an available store with distinct keys
    where no entry under the prefix is corrupt or expired, it returns
    the keys of all the entries that [has] accepts, in enumeration
    order, and leaves the store as it was. *)
Theorem keys_lists_live (st : Storage) :
  Forall (names_live self now (items st)) (ret (keys self now st)) /\
  substore (items (store (keys self now st))) (items st) /\
  (forall i acc kv,
     available st = true ->
     nth_error (items st) i = Some kv ->
     owned self (fst kv) = true ->
     lookup (fst kv) (items st) = Some (snd kv) ->
     parseStoredData (snd kv) = None \/ stale now (snd kv) = true ->
     keys_body self now i acc st
     = Turn acc (with_items st (delete (fst kv) (items st))) [] None) /\
  (available st = true ->
   distinct_keys (items st) = true ->
   (forall kv, In kv (items st) -> owned self (fst kv) = true ->
               is_none (parseStoredData (snd kv)) = false /\
               stale now (snd kv) = false) ->
   keys self now st
   = Out (map (fun kv => user_key self (fst kv))
            (filter (listed_entry self now) (items st))) st []).
Proof.
  destruct (keys_sound self now st) as [Hsound Hsub].
  split; [exact Hsound|]. split; [exact Hsub|]. split.
  - intros i acc [k v] Hav Hnth Hown Hlook Hbad. cbn [fst snd] in *.
    pose proof (owned_full_key k Hown) as Hk.
    rewrite <- Hk in Hlook |- *.
    apply (keys_body_deletes self now (user_key self k) v i acc st Hav).
    + rewrite Hk. exact (Storage_key_nth st i (k, v) Hav Hnth).
    + now rewrite Hk.
    + exact Hlook.
    + exact Hbad.
  - intros Hav Hd Hclean. unfold keys.
    rewrite (loop_scan (keys_body self now)
               (fun acc kv =>
                  if listed_entry self now kv
                  then acc ++ [user_key self (fst kv)] else acc)
               [] st Hav).
    + cbn [local after printed raised]. now rewrite fold_listed.
    + intros i acc [k v] Hnth.
      assert (Hin : In (k, v) (items st)) by exact (nth_error_In _ _ Hnth).
      apply (keys_body_clean i acc st (k, v) Hav Hnth).
      * exact (distinct_keys_lookup _ _ _ Hd Hin).
      * exact (Hclean (k, v) Hin).
Qed.

End KeysClaims.

Lemma keys_lists_live_witness :
  let self :=
    {| namespace := "app:"; defaultTTL := None; enableWarnings := true |} in
  let empty := {| items := []; quota := 1000; available := true |} in
  let st1 := store (set self 0 "x" (JNum 1) {| ttl := Some 500 |} empty) in
  let st2 := store (set self 0 "y" (JStr "v") {| ttl := None |} st1) in
  let st := with_items st2 (items st2 ++ [("other:z", "?")]) in
  available st = true /\
  distinct_keys (items st) = true /\
  keys self 100 st = Out ["x"; "y"] st [].
Proof.
  intros self empty st1 st2 st.
  assert (Hav : available st = true) by reflexivity.
  assert (Hd : distinct_keys (items st) = true) by reflexivity.
  refine (conj Hav (conj Hd _)).
  destruct (keys_lists_live self 100 st) as (_ & _ & _ & Hall).
  apply Hall; [exact Hav | exact Hd |].
  intros kv [<-|[<-|[<-|[]]]] Hown; try discriminate Hown; split; reflexivity.
Defined.

(** Three entries that [keys] does not list.  An entry with the payload
    [null] is well-formed and unexpired and is not listed, because [has]
    compares the payload with [null].  On the default instance the entry
    under the empty key is not listed, because the empty string does not
    pass the guard of the loop.  And an entry that follows an expired one
    in the enumeration is not listed (see [keys_skips_after_removal]). *)
Lemma keys_misses_entries :
  let app :=
    {| namespace := "app:"; defaultTTL := None; enableWarnings := true |} in
  let default :=
    {| namespace := ""; defaultTTL := None; enableWarnings := true |} in
  let empty := {| items := []; quota := 1000; available := true |} in
  let st1 := store (set app 0 "n" JNull {| ttl := None |} empty) in
  let st2 := store (set default 0 "" (JNum 1) {| ttl := None |} empty) in
  let st3 :=
    store (set app 0 "b" (JNum 2) {| ttl := None |}
             (store (set app 0 "a" (JNum 1) {| ttl := Some 10 |} empty))) in
  (exists data, items st1 = [("app:n", data)] /\
                is_none (parseStoredData data) = false /\
                stale 100 data = false) /\
  keys app 100 st1 = Out [] st1 [] /\
  (exists data, items st2 = [("", data)] /\ live 100 data = true) /\
  keys default 100 st2 = Out [] st2 [] /\
  (exists old data, items st3 = [("app:a", old); ("app:b", data)] /\
                    live 100 data = true) /\
  ret (keys app 100 st3) = [].
Proof.
  intros app default empty st1 st2 st3.
  split; [eexists; split; [reflexivity | split; reflexivity]|].
  split; [reflexivity|].
  split; [eexists; split; reflexivity|].
  split; [reflexivity|].
  split; [eexists; eexists; split; reflexivity | reflexivity].
Qed.

(** * Further properties of the code *)

(** ** More on the underlying store *)

Section MoreStoreFacts.

Lemma delete_absent (k : string) (l : list (string * string)) :
  lookup k l = None -> delete k l = l.
Proof.
  induction l as [|[k' v] l IH]; intros H; [reflexivity|].
  cbn in H. unfold delete. cbn [filter fst]. fold (delete k l).
  destruct (String.eqb k k'); [discriminate|]. cbn [negb]. now rewrite IH.
Qed.

Lemma delete_update_same (k v : string) (l : list (string * string)) :
  delete k (update k v l) = delete k l.
Proof.
  induction l as [|[k' v'] l IH].
  - cbn. now rewrite String.eqb_refl.
  - cbn [update]. destruct (String.eqb k k') eqn:E.
    + unfold delete. cbn [filter fst]. now rewrite String.eqb_refl, E.
    + unfold delete. cbn [filter fst]. fold (delete k (update k v l)).
      fold (delete k l). now rewrite IH.
Qed.

Lemma with_items_same (st : Storage) : with_items st (items st) = st.
Proof. now destruct st. Qed.

Lemma lookup_delete (k k' : string) (l : list (string * string)) :
  lookup k' (delete k l) = if String.eqb k' k then None else lookup k' l.
Proof.
  destruct (String.eqb_spec k' k) as [->|Hne].
  - apply lookup_delete_same.
  - now apply lookup_delete_other.
Qed.

Lemma lookup_update (k k' v : string) (l : list (string * string)) :
  lookup k' (update k v l) = if String.eqb k' k then Some v else lookup k' l.
Proof.
  destruct (String.eqb_spec k' k) as [->|Hne].
  - apply lookup_update_same.
  - now apply lookup_update_other.
Qed.

(** The entries kept by a test on the key. *)
Lemma lookup_filter_key (P : string -> bool) (k : string)
  (l : list (string * string)) :
  lookup k (filter (fun kv => P (fst kv)) l)
  = if P k then lookup k l else None.
Proof.
  induction l as [|[k' v] l IH]; [now destruct (P k)|].
  cbn [filter fst]. destruct (P k') eqn:HP'.
  - cbn [lookup]. destruct (String.eqb_spec k k') as [->|Hne].
    + now rewrite HP'.
    + exact IH.
  - rewrite IH. cbn [lookup]. destruct (String.eqb_spec k k') as [->|Hne].
    + now rewrite HP'.
    + reflexivity.
Qed.

Lemma update_length (k v : string) (l : list (string * string)) :
  List.length (update k v l)
  = match lookup k l with
    | Some _ => List.length l
    | None => S (List.length l)
    end.
Proof.
  induction l as [|[k' v'] l IH]; [reflexivity|].
  cbn [update lookup]. destruct (String.eqb k k'); [reflexivity|].
  cbn [List.length]. rewrite IH. now destruct (lookup k l).
Qed.

Lemma startsWith_append (p k : string) : startsWith (p ++ k) p = true.
Proof.
  induction p as [|a p IH]; [reflexivity|].
  cbn. now rewrite Ascii.eqb_refl, IH.
Qed.

Lemma append_inj (p a b : string) : (p ++ a = p ++ b)%string -> a = b.
Proof.
  induction p as [|c p IH]; cbn; [auto|]. intros [= H]. auto.
Qed.

End MoreStoreFacts.

(** ** The constructor and the factory functions *)

Lemma testStorage_ok (self : StoragePlus) (st : Storage) :
  available st = true ->
  (usage (update (namespace self ++ "__test__") "test" (items st))
   <= quota st)%nat ->
  testStorage self st
  = Out tt (with_items st (delete (namespace self ++ "__test__") (items st)))
      [].
Proof.
  intros Hav Hroom. unfold testStorage, setItem, removeItem.
  rewrite Hav. apply Nat.leb_le in Hroom. rewrite Hroom.
  cbn [available with_items items]. rewrite Hav.
  cbn [with_items items quota available]. now rewrite delete_update_same.
Qed.

Lemma testStorage_fails (self : StoragePlus) (st : Storage) :
  available st = false \/
  (quota st < usage (update (namespace self ++ "__test__") "test" (items st)))%nat ->
  testStorage self st
  = Out tt st
      (warn_if self "StoragePlus: Storage is not available or in private mode"
         None).
Proof.
  intros Hbad. unfold testStorage, setItem.
  destruct (available st); [|reflexivity].
  destruct Hbad as [Hbad|Hbad]; [discriminate|].
  apply Nat.leb_gt in Hbad. now rewrite Hbad.
Qed.

Lemma new_StoragePlus_probe (st : Storage) (options : StoragePlusOptions) :
  new_StoragePlus st options
  = Out (ret (new_StoragePlus st options))
      (store (testStorage (ret (new_StoragePlus st options)) st))
      (warned (testStorage (ret (new_StoragePlus st options)) st)).
Proof. reflexivity. Qed.

(** X1. On a store that answers and has room for the probe, building an
    instance prints nothing and leaves the store as it was but for one
    thing: an entry under the full key [__test__] of the namespace is
    gone.  When there is no such entry the store is unchanged. *)
Theorem constructor_probe (st : Storage) (options : StoragePlusOptions) :
  let made := new_StoragePlus st options in
  let testKey := (namespace (ret made) ++ "__test__")%string in
  available st = true ->
  (usage (update testKey "test" (items st)) <= quota st)%nat ->
  store made = with_items st (delete testKey (items st)) /\
  warned made = [] /\
  getItem (store made) testKey = Ok None /\
  (lookup testKey (items st) = None -> store made = st).
Proof.
  intros made testKey Hav Hroom. subst made testKey.
  set (self := ret (new_StoragePlus st options)) in *.
  rewrite (new_StoragePlus_probe st options). fold self.
  rewrite (testStorage_ok self st Hav Hroom). cbn [store warned].
  split; [reflexivity|]. split; [reflexivity|]. split.
  - unfold getItem. cbn [available items with_items].
    now rewrite Hav, lookup_delete_same.
  - intros Habs. rewrite (delete_absent _ _ Habs). apply with_items_same.
Qed.

Lemma constructor_probe_witness :
  let st :=
    {| items := [("app:a", "1"); ("app:__test__", "mine"); ("b", "2")];
       quota := 1000; available := true |} in
  let options :=
    {| o_namespace := Some "app"; o_defaultTTL := None;
       o_enableWarnings := None |} in
  available st = true /\
  (usage (update "app:__test__" "test" (items st)) <= quota st)%nat /\
  store (new_StoragePlus st options)
  = with_items st [("app:a", "1"); ("b", "2")].
Proof.
  intros st options.
  assert (Hav : available st = true) by reflexivity.
  assert (Hroom : (usage (update "app:__test__" "test" (items st))
                   <= quota st)%nat) by (vm_compute; lia).
  exact (conj Hav (conj Hroom
           (proj1 (constructor_probe st options Hav Hroom)))).
Defined.

(** X2. Building an instance never fails: on a store that does not answer,
    or has no room for the probe, the constructor returns the same
    instance, leaves the store as it was, and prints one warning if
    warnings are enabled and none otherwise. *)
Theorem constructor_probe_fails (st : Storage)
  (options : StoragePlusOptions) :
  let made := new_StoragePlus st options in
  let testKey := (namespace (ret made) ++ "__test__")%string in
  available st = false \/
  (quota st < usage (update testKey "test" (items st)))%nat ->
  store made = st /\
  warned made
  = (if enableWarnings (ret made)
     then [Warn "StoragePlus: Storage is not available or in private mode"
             None]
     else []) /\
  ret made = ret (new_StoragePlus (with_items st []) options).
Proof.
  intros made testKey Hbad. subst made testKey.
  set (self := ret (new_StoragePlus st options)) in *.
  rewrite (new_StoragePlus_probe st options). fold self.
  rewrite (testStorage_fails self st Hbad). cbn [store warned ret].
  split; [reflexivity|]. split; reflexivity.
Qed.

Lemma constructor_probe_fails_witness :
  let st := {| items := [("k", "v")]; quota := 5; available := true |} in
  let options :=
    {| o_namespace := Some "app"; o_defaultTTL := None;
       o_enableWarnings := Some false |} in
  (available st = false \/
   (quota st < usage (update "app:__test__" "test" (items st)))%nat) /\
  store (new_StoragePlus st options) = st /\
  warned (new_StoragePlus st options) = [].
Proof.
  intros st options.
  assert (Hbad : available st = false \/
                 (quota st < usage (update "app:__test__" "test" (items st)))%nat)
    by (right; vm_compute; lia).
  destruct (constructor_probe_fails st options Hbad) as (Hs & Hw & _).
  exact (conj Hbad (conj Hs Hw)).
Defined.

(** [clear] and [cleanup] on a store that answers. *)
Lemma clear_available (self : StoragePlus) (st : Storage) :
  available st = true ->
  clear self st
  = Out true
      (with_items st
         (filter (fun kv => negb (owned self (fst kv))) (items st))) [].
Proof.
  intros Hav. unfold clear. rewrite (clear_pass self st Hav).
  cbn [raised local after].
  rewrite (remove_each_available _ st O Hav). cbn [raised after].
  now rewrite fold_delete, (sweep_picked (owned self)).
Qed.

Lemma cleanup_available (self : StoragePlus) (now : Z) (st : Storage) :
  available st = true ->
  cleanup self now st
  = Out (List.length
           (filter (fun kv => cleanup_picks self now st (fst kv)) (items st)))
      (with_items st
         (filter (fun kv => negb (cleanup_picks self now st (fst kv)))
            (items st))) [].
Proof.
  intros Hav. unfold cleanup. rewrite (cleanup_pass self now st Hav).
  cbn [raised local after].
  rewrite (remove_each_available _ st O Hav). cbn [raised local after].
  rewrite fold_delete, (sweep_picked (cleanup_picks self now st)).
  now rewrite length_map.
Qed.

(** X3. The default instances have the empty prefix, so they own every
    entry of their handle whose key is not empty: whatever namespace wrote
    it, [clear()] on a default instance removes it, and only entries under
    the empty key are left. *)
Theorem default_instance_clears_all (w : Window) (st : Storage) :
  let self := ret (localStoragePlus w) in
  available st = true ->
  self = ret (sessionStoragePlus w) /\
  namespace self = "" /\
  clear self st
  = Out true
      (with_items st (filter (fun kv => is_empty (fst kv)) (items st))) [].
Proof.
  intros self Hav. split; [reflexivity|]. split; [reflexivity|].
  rewrite (clear_available self st Hav). f_equal. f_equal.
  apply filter_ext. intros [[|c k] v]; reflexivity.
Qed.

Lemma default_instance_clears_all_witness :
  let st :=
    {| items := [("user:name", "x"); ("", "y"); ("cart:items", "z")];
       quota := 1000; available := true |} in
  let w := {| localStorage := st; sessionStorage := st |} in
  available st = true /\
  clear (ret (localStoragePlus w)) st = Out true (with_items st [("", "y")]) [].
Proof.
  intros st w.
  assert (Hav : available st = true) by reflexivity.
  destruct (default_instance_clears_all w st Hav) as (_ & _ & H).
  exact (conj Hav H).
Defined.

(** ** Faults of the store *)

(** X4. On a store that does not answer, every operation returns its
    failure value ([false], [null], the empty list, 0, [{exists: false}]),
    leaves the store as it was, and prints exactly its own warning when
    warnings are enabled ([has] the one of [get]) and nothing otherwise. *)
Theorem unavailable_store (self : StoragePlus) (now : Z) (c : call)
  (st : Storage) :
  available st = false ->
  perform self now c st
  = Out (failure_value c) st
      (warn_if self (failure_message c) (Some SecurityError)).
Proof.
  intros Hav.
  destruct c as [key v options|key|key|key| | | | |key];
    unfold perform, map_ret.
  - unfold set, setItem, warn_if. rewrite Hav. cbn.
    now destruct (enableWarnings self).
  - unfold get, getItem. now rewrite Hav.
  - unfold has, get, getItem. now rewrite Hav.
  - unfold remove, removeItem. now rewrite Hav.
  - unfold clear. now rewrite (loop_unavailable _ _ _ Hav).
  - unfold keys. now rewrite (loop_unavailable _ _ _ Hav).
  - unfold size. now rewrite (loop_unavailable _ _ _ Hav).
  - unfold cleanup. now rewrite (loop_unavailable _ _ _ Hav).
  - unfold getInfo, getItem. now rewrite Hav.
Qed.

Lemma unavailable_store_witness :
  let self :=
    {| namespace := "app:"; defaultTTL := None; enableWarnings := true |} in
  let st := {| items := [("app:k", "v")]; quota := 10; available := false |} in
  available st = false /\
  perform self 0 Call_keys st
  = Out (Ret_keys []) st
      [Warn "StoragePlus: Failed to get keys" (Some SecurityError)].
Proof.
  intros self st.
  assert (Hav : available st = false) by reflexivity.
  exact (conj Hav (unavailable_store self 0 Call_keys st Hav)).
Defined.

Lemma set_unfold (self : StoragePlus) (now : Z) (key : string) (v : json)
  (options : SetOptions) (st : Storage) :
  set self now key v options st
  = match setItem st (getKey self key) (envelope self now v options) with
    | Ok st' => Out true st' []
    | Throw e =>
        Out false st
          (if enableWarnings self then
             match e with
             | DOMException "QuotaExceededError" =>
                 [Warn "StoragePlus: Storage quota exceeded" None]
             | _ => [Warn "StoragePlus: Failed to set item" (Some e)]
             end
           else [])
    end.
Proof. reflexivity. Qed.

Lemma setItem_Throw (st : Storage) (k v : string) (e : exn) :
  setItem st k v = Throw e ->
  (available st = false /\ e = SecurityError) \/
  (available st = true /\ e = QuotaExceededError /\
   (quota st < usage (update k v (items st)))%nat).
Proof.
  unfold setItem. destruct (available st); [|intros [= <-]; now left].
  destruct (Nat.leb_spec (usage (update k v (items st))) (quota st));
    [discriminate|].
  intros [= <-]. right. now repeat split.
Qed.

(** A [set] that returns [true], by the text it wrote. *)
Lemma set_written (self : StoragePlus) (now : Z) (key : string) (v : json)
  (options : SetOptions) (st : Storage) :
  ret (set self now key v options st) = true ->
  available st = true /\
  set self now key v options st
  = Out true
      (with_items st
         (update (getKey self key) (envelope self now v options) (items st)))
      [].
Proof. exact (set_true self now key v options st). Qed.

(** ** [set] and [get] together *)

Lemma getKey_inj (self : StoragePlus) (key key' : string) :
  getKey self key = getKey self key' -> key = key'.
Proof. unfold getKey. apply append_inj. Qed.

Lemma envelope_parsed (self : StoragePlus) (now : Z) (v : json)
  (options : SetOptions) :
  parseStoredData (envelope self now v options)
  = Some (item_json {| value := v; expiresAt := expiry self now options;
                       createdAt := now |}).
Proof. apply parseStoredData_envelope. Qed.

Lemma envelope_stale (self : StoragePlus) (now later : Z) (v : json)
  (options : SetOptions) :
  stale later (envelope self now v options)
  = match expiry self now options with
    | Some e => later >? e
    | None => false
    end.
Proof. unfold stale. now rewrite envelope_parsed, isExpired_envelope. Qed.

(** [get] after a [set] that went through. *)
Lemma get_after_set (self : StoragePlus) (now later : Z) (key : string)
  (v : json) (options : SetOptions) (st : Storage) :
  ret (set self now key v options st) = true ->
  let st' := store (set self now key v options st) in
  get self later key st'
  = if match expiry self now options with
       | Some e => later >? e
       | None => false
       end
    then Out JNull (with_items st' (delete (getKey self key) (items st'))) []
    else Out v st' [].
Proof.
  intros Hset st'. subst st'.
  destruct (set_written self now key v options st Hset) as [Hav ->].
  cbn [store].
  now rewrite (get_envelope self later key
                 {| value := v; expiresAt := expiry self now options;
                    createdAt := now |}
                 (with_items st
                    (update (getKey self key) (envelope self now v options)
                       (items st)))
                 Hav (lookup_update_same _ _ _)).
Qed.

(** X6. What [get] answers after a [set] that went through follows from
    the ttl that [set] resolved: the one of the call if there is one, else
    the configured default, no expiry if that is absent or 0.  Up to and at
    [now + ttl] it is the payload, and the store stays as it is; after, it
    is [null], and the entry is deleted.  The sum is a safe integer, so
    that [set] does not round it. *)
Theorem set_then_get_resolved (self : StoragePlus) (now : Z) (key : string)
  (v : json) (options : SetOptions) (st : Storage) :
  (forall t, resolved_ttl self options = Some t ->
             safe_integer (now + t) = true) ->
  ret (set self now key v options st) = true ->
  let st' := store (set self now key v options st) in
  let expired (later : Z) :=
    match resolved_ttl self options with
    | Some t => negb (t =? 0) && (later >? now + t)
    | None => false
    end in
  forall later,
    get self later key st'
    = if expired later
      then Out JNull (with_items st' (delete (getKey self key) (items st'))) []
      else Out v st' [].
Proof.
  intros Hsafe Hset st' expired later. subst st' expired.
  rewrite (get_after_set self now later key v options st Hset).
  unfold expiry.
  destruct (resolved_ttl self options) as [t|]; [|reflexivity].
  destruct (t =? 0); [reflexivity|].
  now rewrite (js_add_safe now t (Hsafe t eq_refl)).
Qed.

Lemma set_then_get_resolved_witness :
  let app :=
    {| namespace := "app:"; defaultTTL := Some 50; enableWarnings := true |} in
  let st := {| items := []; quota := 1000; available := true |} in
  let st' := store (set app 100 "k" (JStr "v") {| ttl := None |} st) in
  ret (set app 100 "k" (JStr "v") {| ttl := None |} st) = true /\
  get app 150 "k" st' = Out (JStr "v") st' [] /\
  get app 151 "k" st' = Out JNull (with_items st' []) [].
Proof.
  intros app st st'.
  assert (Hset : ret (set app 100 "k" (JStr "v") {| ttl := None |} st) = true)
    by reflexivity.
  assert (Hsafe : forall t, resolved_ttl app {| ttl := None |} = Some t ->
                            safe_integer (100 + t) = true)
    by (intros t [= <-]; reflexivity).
  exact (conj Hset
           (conj (set_then_get_resolved app 100 "k" (JStr "v")
                    {| ttl := None |} st Hsafe Hset 150)
                 (set_then_get_resolved app 100 "k" (JStr "v")
                    {| ttl := None |} st Hsafe Hset 151))).
Defined.

(** X7. A negative ttl gives an entry that is expired from the start:
    [set] writes it and returns [true], and a [get] at the same instant, or
    later, returns [null] and deletes it, which leaves the store as a
    [remove] of the key would.  The instant, the ttl and their sum are
    safe integers. *)
Theorem negative_ttl (self : StoragePlus) (now t : Z) (key : string)
  (v : json) (st : Storage) :
  t < 0 ->
  safe_integer now = true ->
  safe_integer t = true ->
  safe_integer (now + t) = true ->
  ret (set self now key v {| ttl := Some t |} st) = true ->
  let st' := store (set self now key v {| ttl := Some t |} st) in
  getItem st' (getKey self key)
  = Ok (Some (JSON.stringify
                (item_json {| value := v; expiresAt := Some (now + t);
                              createdAt := now |}))) /\
  forall later, now <= later ->
    get self later key st'
    = Out JNull (with_items st (delete (getKey self key) (items st))) [].
Proof.
  intros Ht _ _ Hsum Hset st'. subst st'.
  assert (Hexp : expiry self now {| ttl := Some t |} = Some (now + t)).
  { unfold expiry, resolved_ttl. cbn [ttl].
    destruct (Z.eqb_spec t 0) as [->|_]; [lia|]. now apply js_add_safe. }
  split.
  - destruct (set_written self now key v _ st Hset) as [Hav ->].
    unfold getItem. cbn [store available items with_items].
    rewrite Hav, lookup_update_same. unfold envelope. now rewrite Hexp.
  - intros later Hlater.
    rewrite (get_after_set self now later key v _ st Hset).
    destruct (set_written self now key v _ st Hset) as [Hav ->].
    rewrite Hexp. cbn [store].
    destruct (Z.gtb_spec later (now + t)); [|lia].
    cbn [items with_items]. now rewrite delete_update_same.
Qed.

Lemma negative_ttl_witness :
  let app :=
    {| namespace := "app:"; defaultTTL := None; enableWarnings := true |} in
  let st := {| items := [("app:o", "x")]; quota := 1000; available := true |} in
  let st' := store (set app 100 "k" (JNum 1) {| ttl := Some (-1) |} st) in
  -1 < 0 /\
  ret (set app 100 "k" (JNum 1) {| ttl := Some (-1) |} st) = true /\
  get app 100 "k" st' = Out JNull st [].
Proof.
  intros app st st'.
  assert (Ht : -1 < 0) by lia.
  assert (Hset : ret (set app 100 "k" (JNum 1) {| ttl := Some (-1) |} st)
                 = true) by reflexivity.
  destruct (negative_ttl app 100 (-1) "k" (JNum 1) st Ht
              eq_refl eq_refl eq_refl Hset) as [_ Hget].
  exact (conj Ht (conj Hset (Hget 100 (Z.le_refl 100)))).
Defined.

Lemma getInfo_available (self : StoragePlus) (now : Z) (key : string)
  (st : Storage) :
  available st = true ->
  getInfo self now key st
  = match lookup (getKey self key) (items st) with
    | None => Out not_there st []
    | Some data =>
        match parseStoredData data with
        | None => Out not_there st []
        | Some item =>
            if isExpired now item
            then Out not_there
                   (with_items st (delete (getKey self key) (items st))) []
            else Out {| exists_ := true;
                        info_createdAt := get_prop "createdAt" item;
                        info_expiresAt := Some (get_prop "expiresAt" item);
                        info_size := Some (String.length data) |} st []
        end
    end.
Proof.
  intros Hav. unfold getInfo, getItem, removeItem. rewrite Hav.
  destruct (lookup (getKey self key) (items st)) as [data|]; [|reflexivity].
  destruct (parseStoredData data) as [item|]; [|reflexivity].
  now destruct (isExpired now item).
Qed.

Lemma update_keys (k v x : string) (l : list (string * string)) :
  lookup k l = Some x -> map fst (update k v l) = map fst l.
Proof.
  induction l as [|[k' v'] l IH]; [discriminate|].
  cbn [lookup update]. destruct (String.eqb_spec k k') as [->|Hne].
  - reflexivity.
  - intros H. cbn [map fst]. now rewrite (IH H).
Qed.

Lemma update_update (k v1 v2 : string) (l : list (string * string)) :
  update k v2 (update k v1 l) = update k v2 l.
Proof.
  induction l as [|[k' v'] l IH].
  - cbn. now rewrite String.eqb_refl.
  - cbn [update]. destruct (String.eqb k k') eqn:E; cbn [update].
    + now rewrite String.eqb_refl.
    + now rewrite E, IH.
Qed.

(** What [get] and [getInfo] return depends on the store only through the
    entry under the full key. *)
Lemma get_ret_lookup (self : StoragePlus) (now : Z) (key : string)
  (st st2 : Storage) :
  available st = true -> available st2 = true ->
  lookup (getKey self key) (items st) = lookup (getKey self key) (items st2) ->
  ret (get self now key st) = ret (get self now key st2).
Proof.
  intros Hav Hav2 Hlook.
  rewrite (get_available self now key st Hav).
  rewrite (get_available self now key st2 Hav2). rewrite Hlook.
  destruct (lookup (getKey self key) (items st2)) as [data|]; [|reflexivity].
  now destruct (is_none (parseStoredData data) || stale now data).
Qed.

Lemma getInfo_ret_lookup (self : StoragePlus) (now : Z) (key : string)
  (st st2 : Storage) :
  available st = true -> available st2 = true ->
  lookup (getKey self key) (items st) = lookup (getKey self key) (items st2) ->
  ret (getInfo self now key st) = ret (getInfo self now key st2).
Proof.
  intros Hav Hav2 Hlook.
  rewrite (getInfo_available self now key st Hav).
  rewrite (getInfo_available self now key st2 Hav2). rewrite Hlook.
  destruct (lookup (getKey self key) (items st2)) as [data|]; [|reflexivity].
  destruct (parseStoredData data) as [item|]; [|reflexivity].
  now destruct (isExpired now item).
Qed.

(** X9. A [set] changes the entry of its own key and no other: under any
    other key of the same instance the store holds what it held, and
    [get], [has] and [getInfo] answer as they would have without the
    [set]. *)
Theorem set_leaves_other_keys (self : StoragePlus) (now : Z)
  (key key' : string) (v : json) (options : SetOptions) (st : Storage) :
  key' <> key ->
  ret (set self now key v options st) = true ->
  let st' := store (set self now key v options st) in
  getItem st' (getKey self key') = getItem st (getKey self key') /\
  forall later,
    ret (get self later key' st') = ret (get self later key' st) /\
    ret (has self later key' st') = ret (has self later key' st) /\
    ret (getInfo self later key' st') = ret (getInfo self later key' st).
Proof.
  intros Hne Hset st'. subst st'.
  destruct (set_written self now key v options st Hset) as [Hav ->].
  cbn [store].
  set (st' := with_items st _).
  assert (Hlook : lookup (getKey self key') (items st')
                  = lookup (getKey self key') (items st)).
  { subst st'. cbn [items with_items]. apply lookup_update_other.
    intros E. apply Hne. exact (getKey_inj self key' key E). }
  assert (Hav' : available st' = true) by exact Hav.
  split.
  - unfold getItem. now rewrite Hav, Hav', Hlook.
  - intros later.
    pose proof (get_ret_lookup self later key' st' st Hav' Hav Hlook) as Hg.
    split; [exact Hg|]. split.
    + unfold has. cbn [ret]. now rewrite Hg.
    + exact (getInfo_ret_lookup self later key' st' st Hav' Hav Hlook).
Qed.

Lemma set_leaves_other_keys_witness :
  let app :=
    {| namespace := "app:"; defaultTTL := None; enableWarnings := true |} in
  let empty := {| items := []; quota := 1000; available := true |} in
  let st := store (set app 0 "a" (JNum 1) {| ttl := None |} empty) in
  let st' := store (set app 5 "b" (JNum 2) {| ttl := Some 3 |} st) in
  "a" <> "b" /\
  ret (set app 5 "b" (JNum 2) {| ttl := Some 3 |} st) = true /\
  ret (get app 100 "a" st') = ret (get app 100 "a" st).
Proof.
  intros app empty st st'.
  assert (Hne : "a" <> "b") by discriminate.
  assert (Hset : ret (set app 5 "b" (JNum 2) {| ttl := Some 3 |} st) = true)
    by reflexivity.
  destruct (set_leaves_other_keys app 5 "b" "a" (JNum 2) {| ttl := Some 3 |}
              st Hne Hset) as [_ H].
  exact (conj Hne (conj Hset (proj1 (H 100)))).
Defined.

(** ** [remove] *)

(** X10. On a store that answers, [remove] returns [true] whether or not
    the key is there, and prints nothing; afterwards the entry is absent:
    [get] returns [null], [has] [false] and [getInfo] [{exists: false}],
    at every instant and without touching the store again; every other
    entry is as it was, and when the key was not there the store is
    unchanged. *)
Theorem remove_then_absent (self : StoragePlus) (key : string)
  (st : Storage) :
  available st = true ->
  let st' := with_items st (delete (getKey self key) (items st)) in
  remove self key st = Out true st' [] /\
  (forall now,
     get self now key st' = Out JNull st' [] /\
     has self now key st' = Out false st' [] /\
     getInfo self now key st' = Out not_there st' []) /\
  (forall k, k <> getKey self key -> lookup k (items st') = lookup k (items st)) /\
  (lookup (getKey self key) (items st) = None -> st' = st).
Proof.
  intros Hav st'.
  assert (Hav' : available st' = true) by exact Hav.
  assert (Habs : lookup (getKey self key) (items st') = None)
    by apply lookup_delete_same.
  split; [|split; [|split]].
  - unfold remove, removeItem. now rewrite Hav.
  - intros now.
    assert (Hg : get self now key st' = Out JNull st' [])
      by (rewrite (get_available self now key st' Hav'); now rewrite Habs).
    split; [exact Hg|]. split.
    + unfold has. now rewrite Hg.
    + rewrite (getInfo_available self now key st' Hav'). now rewrite Habs.
  - intros k Hk. subst st'. cbn [items with_items].
    now apply lookup_delete_other.
  - intros Hnone. subst st'. rewrite (delete_absent _ _ Hnone).
    apply with_items_same.
Qed.

Lemma remove_then_absent_witness :
  let app :=
    {| namespace := "app:"; defaultTTL := None; enableWarnings := true |} in
  let st :=
    {| items := [("app:a", "1"); ("app:b", "2")]; quota := 1000;
       available := true |} in
  available st = true /\
  remove app "a" st = Out true (with_items st [("app:b", "2")]) [] /\
  remove app "zz" st = Out true st [].
Proof.
  intros app st.
  assert (Hav : available st = true) by reflexivity.
  exact (conj Hav
           (conj (proj1 (remove_then_absent app "a" st Hav))
                 (proj1 (remove_then_absent app "zz" st Hav)))).
Defined.

(** ** [get] again, and at other instants *)

(** X11. The lazy deletion of [get] happens once: a second [get] of the
    same key at the same instant has the outcome of the first and changes
    nothing more.  And once [get] has returned [null], it returns [null]
    at every instant, until the key is set again. *)
Theorem get_settles (self : StoragePlus) (now : Z) (key : string)
  (st : Storage) :
  let first := get self now key st in
  get self now key (store first) = first /\
  (ret first = JNull ->
   forall later, ret (get self later key (store first)) = JNull).
Proof.
  intros first. subst first.
  destruct (available st) eqn:Hav.
  - rewrite (get_available self now key st Hav).
    destruct (lookup (getKey self key) (items st)) as [data|] eqn:Hlook.
    + destruct (is_none (parseStoredData data) || stale now data) eqn:Hbad.
      * cbn [store ret].
        set (st' := with_items st _).
        assert (Hav' : available st' = true) by exact Hav.
        assert (Habs : lookup (getKey self key) (items st') = None)
          by apply lookup_delete_same.
        split.
        -- rewrite (get_available self now key st' Hav'). now rewrite Habs.
        -- intros _ later.
           rewrite (get_available self later key st' Hav'). now rewrite Habs.
      * cbn [store ret]. split.
        -- rewrite (get_available self now key st Hav). now rewrite Hlook, Hbad.
        -- intros Hnull later.
           rewrite (get_available self later key st Hav), Hlook.
           destruct (is_none (parseStoredData data) || stale later data);
             [reflexivity | exact Hnull].
    + cbn [store ret]. split.
      * rewrite (get_available self now key st Hav). now rewrite Hlook.
      * intros _ later.
        rewrite (get_available self later key st Hav). now rewrite Hlook.
  - assert (E : forall t, get self t key st
                          = Out JNull st
                              (warn_if self "StoragePlus: Failed to get item"
                                 (Some SecurityError))).
    { intros t. unfold get, getItem. now rewrite Hav. }
    rewrite (E now). cbn [store ret]. split; [apply E|].
    intros _ later. now rewrite (E later).
Qed.

(** ** [getInfo] *)

(** X13. After a [set] that went through, [getInfo] of the key reports,
    up to and at the expiry, that the entry exists, the instant of the
    [set] as [createdAt], the expiry ([null] when there is none) as
    [expiresAt] and the length of the stored text as [size], and leaves
    the store as it is; after the expiry it reports [{exists: false}] and
    deletes the entry.  The instant and its sum with the ttl are safe
    integers, so that the expiry is their exact sum. *)
Theorem getInfo_after_set (self : StoragePlus) (now : Z) (key : string)
  (v : json) (options : SetOptions) (st : Storage) :
  safe_integer now = true ->
  (forall t, resolved_ttl self options = Some t ->
             safe_integer (now + t) = true) ->
  ret (set self now key v options st) = true ->
  let st' := store (set self now key v options st) in
  let expires :=
    match resolved_ttl self options with
    | Some t => if t =? 0 then None else Some (now + t)
    | None => None
    end in
  forall later,
    getInfo self later key st'
    = if match expires with
         | Some e => later >? e
         | None => false
         end
      then Out not_there
             (with_items st' (delete (getKey self key) (items st'))) []
      else Out {| exists_ := true;
                  info_createdAt := Some (JNum now);
                  info_expiresAt :=
                    Some (Some match expires with
                               | Some e => JNum e
                               | None => JNull
                               end);
                  info_size :=
                    Some (String.length (envelope self now v options)) |}
             st' [].
Proof.
  intros _ Hsafe Hset st' expires later. subst st'.
  assert (Hexp : expiry self now options = expires).
  { unfold expiry, expires.
    destruct (resolved_ttl self options) as [t|]; [|reflexivity].
    destruct (t =? 0); [reflexivity|]. now apply js_add_safe, Hsafe. }
  rewrite <- Hexp. clear Hexp expires.
  destruct (set_written self now key v options st Hset) as [Hav ->].
  cbn [store]. set (st' := with_items st _).
  assert (Hav' : available st' = true) by exact Hav.
  rewrite (getInfo_available self later key st' Hav').
  subst st'. cbn [items with_items].
  rewrite lookup_update_same, envelope_parsed, isExpired_envelope.
  cbn [expiresAt].
  now destruct (expiry self now options) as [e|]; [destruct (later >? e)|].
Qed.

Lemma getInfo_after_set_witness :
  let app :=
    {| namespace := "app:"; defaultTTL := None; enableWarnings := true |} in
  let empty := {| items := []; quota := 1000; available := true |} in
  let st' := store (set app 5 "k" (JNum 7) {| ttl := Some 100 |} empty) in
  ret (set app 5 "k" (JNum 7) {| ttl := Some 100 |} empty) = true /\
  getInfo app 50 "k" st'
  = Out {| exists_ := true; info_createdAt := Some (JNum 5);
           info_expiresAt := Some (Some (JNum 105));
           info_size := Some 41%nat |} st' [].
Proof.
  intros app empty st'.
  assert (Hset : ret (set app 5 "k" (JNum 7) {| ttl := Some 100 |} empty)
                 = true) by reflexivity.
  assert (Hsafe : forall t, resolved_ttl app {| ttl := Some 100 |} = Some t ->
                            safe_integer (5 + t) = true)
    by (intros t [= <-]; reflexivity).
  exact (conj Hset
           (getInfo_after_set app 5 "k" (JNum 7) {| ttl := Some 100 |} empty
              eq_refl Hsafe Hset 50)).
Defined.

(** X14. When [has(k)] is [true], [getInfo(k)] reports that the entry
    exists, with the length of the stored text as its size, and neither
    call changes the store or prints anything.  (The converse fails for an
    entry whose payload is [null].) *)
Theorem has_implies_info (self : StoragePlus) (now : Z) (key : string)
  (st : Storage) :
  ret (has self now key st) = true ->
  has self now key st = Out true st [] /\
  exists data,
    getItem st (getKey self key) = Ok (Some data) /\
    exists_ (ret (getInfo self now key st)) = true /\
    info_size (ret (getInfo self now key st)) = Some (String.length data) /\
    store (getInfo self now key st) = st /\
    warned (getInfo self now key st) = [].
Proof.
  intros Hhas.
  assert (Hav : available st = true).
  { destruct (available st) eqn:Hav; [reflexivity|].
    unfold has, get, getItem in Hhas. rewrite Hav in Hhas. discriminate. }
  unfold has in *. cbn [ret] in Hhas.
  rewrite (get_available self now key st Hav) in Hhas |- *.
  rewrite (getInfo_available self now key st Hav).
  unfold getItem. rewrite Hav.
  destruct (lookup (getKey self key) (items st)) as [data|]; [|discriminate].
  unfold stale, is_none in *.
  destruct (parseStoredData data) as [item|]; [|discriminate].
  cbn [orb] in *.
  destruct (isExpired now item); [discriminate|].
  cbn [ret store warned] in *. rewrite Hhas.
  split; [reflexivity|]. exists data. now repeat split.
Qed.

Lemma has_implies_info_witness :
  let app :=
    {| namespace := "app:"; defaultTTL := None; enableWarnings := true |} in
  let empty := {| items := []; quota := 1000; available := true |} in
  let st := store (set app 5 "k" (JNum 7) {| ttl := None |} empty) in
  ret (has app 9 "k" st) = true /\
  has app 9 "k" st = Out true st [].
Proof.
  intros app empty st.
  assert (Hhas : ret (has app 9 "k" st) = true) by reflexivity.
  exact (conj Hhas (proj1 (has_implies_info app 9 "k" st Hhas))).
Defined.

(** ** The bulk operations, one after another *)

Lemma fold_left_const {A B : Type} (l : list B) (a : A) :
  fold_left (fun a _ => a) l a = a.
Proof. induction l as [|x l IH]; [reflexivity | exact IH]. Qed.

(** On a store without entries under the namespace the four loops do
    nothing. *)
Lemma loops_nothing_owned (self : StoragePlus) (now : Z) (st : Storage) :
  available st = true ->
  (forall kv, In kv (items st) -> owned self (fst kv) = false) ->
  (forall acc, loop (clear_body self) acc st = Turn acc st [] None) /\
  (forall acc, loop (keys_body self now) acc st = Turn acc st [] None) /\
  (forall n, loop (size_body self) n st = Turn n st [] None) /\
  (forall acc, loop (cleanup_body self now) acc st = Turn acc st [] None).
Proof.
  intros Hav Hnone.
  assert (Hskip : forall i kv, nth_error (items st) i = Some kv ->
                    Storage_key st i = Ok (Some (fst kv)) /\
                    namespaced self (Some (fst kv)) = None).
  { intros i kv Hnth. split; [exact (Storage_key_nth st i kv Hav Hnth)|].
    rewrite namespaced_owned.
    now rewrite (Hnone kv (nth_error_In _ _ Hnth)). }
  split; [|split; [|split]]; intros a.
  - rewrite (loop_scan (clear_body self) (fun a _ => a) a st Hav);
      [now rewrite fold_left_const|].
    intros i a' kv Hnth. destruct (Hskip i kv Hnth) as [Hk Hn].
    unfold clear_body. now rewrite Hk, Hn.
  - rewrite (loop_scan (keys_body self now) (fun a _ => a) a st Hav);
      [now rewrite fold_left_const|].
    intros i a' kv Hnth. destruct (Hskip i kv Hnth) as [Hk Hn].
    unfold keys_body. now rewrite Hk, Hn.
  - rewrite (loop_scan (size_body self) (fun a _ => a) a st Hav);
      [now rewrite fold_left_const|].
    intros i a' kv Hnth. destruct (Hskip i kv Hnth) as [Hk Hn].
    unfold size_body. now rewrite Hk, Hn.
  - rewrite (loop_scan (cleanup_body self now) (fun a _ => a) a st Hav);
      [now rewrite fold_left_const|].
    intros i a' kv Hnth. destruct (Hskip i kv Hnth) as [Hk Hn].
    unfold cleanup_body. now rewrite Hk, Hn.
Qed.

Lemma filter_idem {B : Type} (p : B -> bool) (l : list B) :
  filter p (filter p l) = filter p l.
Proof.
  induction l as [|x l IH]; [reflexivity|]. cbn [filter].
  destruct (p x) eqn:E; [|exact IH]. cbn [filter]. now rewrite E, IH.
Qed.

(** X15. After a [clear()] on a store that answers, the namespace is
    empty for every operation: [keys()] returns the empty list, [size()]
    0, [cleanup()] 0, [get(k)] [null] for every [k] whose full key is not
    empty, and a second [clear()] returns [true]; none of them changes the
    store or prints anything. *)
Theorem clear_then_empty (self : StoragePlus) (st : Storage) :
  available st = true ->
  let st' := store (clear self st) in
  ret (clear self st) = true /\
  clear self st' = Out true st' [] /\
  size self st' = Out O st' [] /\
  forall now,
    keys self now st' = Out [] st' [] /\
    cleanup self now st' = Out O st' [] /\
    forall key, owned self (getKey self key) = true ->
                get self now key st' = Out JNull st' [].
Proof.
  intros Hav st'. subst st'. rewrite (clear_available self st Hav).
  cbn [ret store]. set (st' := with_items st _).
  assert (Hav' : available st' = true) by exact Hav.
  assert (Hnone : forall kv, In kv (items st') -> owned self (fst kv) = false).
  { intros kv Hin. subst st'. cbn [items with_items] in Hin.
    apply filter_In in Hin as [_ H]. now apply negb_true_iff in H. }
  split; [reflexivity|]. split; [|split].
  - rewrite (clear_available self st' Hav'). subst st'.
    cbn [items with_items]. now rewrite filter_idem.
  - unfold size.
    now rewrite (proj1 (proj2 (proj2 (loops_nothing_owned self 0 st' Hav' Hnone)))).
  - intros now.
    destruct (loops_nothing_owned self now st' Hav' Hnone)
      as (_ & Hkeys & _ & Hcleanup).
    split; [|split].
    + unfold keys. now rewrite Hkeys.
    + unfold cleanup. rewrite Hcleanup. cbn [raised local after remove_each].
      reflexivity.
    + intros key Hown. rewrite (get_available self now key st' Hav').
      subst st'. cbn [items with_items].
      rewrite (lookup_filter_key (fun k => negb (owned self k))).
      now rewrite Hown.
Qed.

Lemma clear_then_empty_witness :
  let app :=
    {| namespace := "app:"; defaultTTL := None; enableWarnings := true |} in
  let st :=
    {| items := [("app:a", "1"); ("b", "2")]; quota := 1000;
       available := true |} in
  available st = true /\
  keys app 0 (store (clear app st)) = Out [] (with_items st [("b", "2")]) [].
Proof.
  intros app st.
  assert (Hav : available st = true) by reflexivity.
  destruct (clear_then_empty app st Hav) as (_ & _ & _ & H).
  exact (conj Hav (proj1 (H 0))).
Defined.

(** [keys] on a store without corrupt or expired entries under the
    namespace: nothing is deleted, so the loop reads every entry. *)
Lemma keys_clean (self : StoragePlus) (now : Z) (st : Storage) :
  available st = true ->
  distinct_keys (items st) = true ->
  clean self now (items st) ->
  keys self now st
  = Out (map (fun kv => user_key self (fst kv))
           (filter (listed_entry self now) (items st))) st [].
Proof.
  intros Hav Hd Hclean. unfold keys.
  rewrite (loop_scan (keys_body self now)
             (fun acc kv =>
                if listed_entry self now kv
                then acc ++ [user_key self (fst kv)] else acc)
             [] st Hav).
  - cbn [local after printed raised]. now rewrite fold_listed.
  - intros i acc [k v] Hnth.
    assert (Hin : In (k, v) (items st)) by exact (nth_error_In _ _ Hnth).
    apply (keys_body_clean self now i acc st (k, v) Hav Hnth).
    + exact (distinct_keys_lookup _ _ _ Hd Hin).
    + exact (Hclean (k, v) Hin).
Qed.

Lemma distinct_keys_filter (P : string -> bool)
  (l : list (string * string)) :
  distinct_keys l = true ->
  distinct_keys (filter (fun kv => P (fst kv)) l) = true.
Proof.
  induction l as [|[k v] l IH]; intros Hd; [reflexivity|].
  cbn [distinct_keys] in Hd. destruct (lookup k l) eqn:Hl; [discriminate|].
  cbn [filter fst]. destruct (P k) eqn:HP; [|exact (IH Hd)].
  cbn [distinct_keys]. rewrite (lookup_filter_key P k l), HP, Hl.
  exact (IH Hd).
Qed.

Lemma filter_filter_in {B : Type} (p q : B -> bool) (l : list B) :
  (forall x, In x l -> p x = true -> q x = true) ->
  filter p (filter q l) = filter p l.
Proof.
  intros H. induction l as [|x l IH]; [reflexivity|]. cbn [filter].
  assert (IH' : filter p (filter q l) = filter p l)
    by (apply IH; intros y Hy; apply H; now right).
  destruct (p x) eqn:Hp.
  - rewrite (H x (or_introl eq_refl) Hp). cbn [filter]. now rewrite Hp, IH'.
  - destruct (q x); [cbn [filter]; now rewrite Hp|]; exact IH'.
Qed.

(** ** What the operations leave alone *)

Section Frame.

Variables (self : StoragePlus) (now : Z).

Lemma pruned_refl (l : list (string * string)) :
  pruned (namespace self) l l.
Proof. intros k. now left. Qed.

Lemma pruned_delete (k0 : string) (l' l : list (string * string)) :
  startsWith k0 (namespace self) = true ->
  pruned (namespace self) l' l ->
  pruned (namespace self) (delete k0 l') l.
Proof.
  intros Hk0 H k. rewrite lookup_delete.
  destruct (String.eqb_spec k k0) as [->|_]; [now right | apply H].
Qed.

Lemma shrunk_refl (st : Storage) : shrunk self st st.
Proof.
  exists (items st). split; [symmetry; apply with_items_same | apply pruned_refl].
Qed.

Lemma shrunk_removeItem (st st1 : Storage) (k : string) :
  startsWith k (namespace self) = true ->
  shrunk self st st1 ->
  match removeItem st1 k with
  | Ok st2 => shrunk self st st2
  | Throw _ => True
  end.
Proof.
  intros Hk (l1 & -> & Hp). unfold removeItem. cbn [available with_items].
  destruct (available st); [|exact I].
  exists (delete k l1). split; [reflexivity|]. now apply pruned_delete.
Qed.

Lemma owned_startsWith (k : string) :
  owned self k = true -> startsWith k (namespace self) = true.
Proof. destruct k; [discriminate | auto]. Qed.

Lemma namespaced_Some (key : option string) (k : string) :
  namespaced self key = Some k -> key = Some k /\ owned self k = true.
Proof.
  destruct key as [k'|]; [|discriminate].
  rewrite namespaced_owned. destruct (owned self k') eqn:E; [|discriminate].
  intros [= <-]. now split.
Qed.

Lemma get_shrinks (key : string) (st st1 : Storage) :
  shrunk self st st1 -> shrunk self st (store (get self now key st1)).
Proof.
  intros H. destruct (get_store self now key st1) as [-> | ->]; [exact H|].
  pose proof (shrunk_removeItem st st1 (getKey self key)
                (startsWith_append _ _) H) as H'.
  unfold removeItem in H'. destruct H as (l1 & -> & Hp).
  exists (delete (getKey self key) l1). split; [reflexivity|].
  apply pruned_delete; [apply startsWith_append | exact Hp].
Qed.

Lemma getInfo_shrinks (key : string) (st st1 : Storage) :
  shrunk self st st1 -> shrunk self st (store (getInfo self now key st1)).
Proof.
  intros H. unfold getInfo.
  destruct (getItem st1 _) as [[data|]|e]; cbn [store]; try exact H.
  destruct (parseStoredData data) as [item|]; cbn [store]; [|exact H].
  destruct (isExpired now item); cbn [store]; [|exact H].
  pose proof (shrunk_removeItem st st1 (getKey self key)
                (startsWith_append _ _) H) as H'.
  destruct (removeItem st1 (getKey self key)); cbn [store]; [exact H' | exact H].
Qed.

Lemma remove_each_shrinks (ks : list string) (st st1 : Storage) (n : nat) :
  Forall (fun k => startsWith k (namespace self) = true) ks ->
  shrunk self st st1 ->
  shrunk self st (after (remove_each ks st1 n)).
Proof.
  intros Hks. revert st1 n.
  induction Hks as [|k ks Hk Hks IH]; intros st1 n H; [exact H|].
  cbn [remove_each].
  pose proof (shrunk_removeItem st st1 k Hk H) as H'.
  destruct (removeItem st1 k) as [st2|e]; [now apply IH | exact H].
Qed.

(** The first passes of [clear] and [cleanup], and the loop of [size],
    leave the store as it is and collect keys under the namespace. *)
Lemma collecting_pass (body : nat -> list string -> Storage -> turn (list string))
  (st : Storage) :
  (forall i acc st',
     after (body i acc st') = st' /\
     (Forall (fun k => startsWith k (namespace self) = true) acc ->
      Forall (fun k => startsWith k (namespace self) = true)
        (local (body i acc st')))) ->
  after (loop body [] st) = st /\
  Forall (fun k => startsWith k (namespace self) = true)
    (local (loop body [] st)).
Proof.
  intros Hbody. unfold loop.
  apply (for_each_index_invariant body
           (fun acc st' =>
              st' = st /\
              Forall (fun k => startsWith k (namespace self) = true) acc));
    [|now split].
  intros i acc st' [-> Hacc]. destruct (Hbody i acc st) as [-> Hf].
  split; [reflexivity | exact (Hf Hacc)].
Qed.

Lemma clear_body_collects (i : nat) (acc : list string) (st' : Storage) :
  after (clear_body self i acc st') = st' /\
  (Forall (fun k => startsWith k (namespace self) = true) acc ->
   Forall (fun k => startsWith k (namespace self) = true)
     (local (clear_body self i acc st'))).
Proof.
  unfold clear_body. destruct (Storage_key st' i) as [key|e]; [|now split].
  destruct (namespaced self key) as [k|] eqn:E; [|now split].
  split; [reflexivity|]. intros Hacc. cbn [local].
  apply Forall_app. split; [exact Hacc|]. constructor; [|constructor].
  apply owned_startsWith. exact (proj2 (namespaced_Some key k E)).
Qed.

Lemma cleanup_body_collects (i : nat) (acc : list string) (st' : Storage) :
  after (cleanup_body self now i acc st') = st' /\
  (Forall (fun k => startsWith k (namespace self) = true) acc ->
   Forall (fun k => startsWith k (namespace self) = true)
     (local (cleanup_body self now i acc st'))).
Proof.
  unfold cleanup_body. destruct (Storage_key st' i) as [key|e]; [|now split].
  destruct (namespaced self key) as [k|] eqn:E; [|now split].
  destruct (getItem st' k) as [[[|c r]|]|]; try now split.
  destruct (parseStoredData _) as [item|]; [|now split].
  destruct (isExpired now item); [|now split].
  split; [reflexivity|]. intros Hacc. cbn [local].
  apply Forall_app. split; [exact Hacc|]. constructor; [|constructor].
  apply owned_startsWith. exact (proj2 (namespaced_Some key k E)).
Qed.

Lemma size_loop_store (st : Storage) : after (loop (size_body self) O st) = st.
Proof.
  unfold loop.
  apply (for_each_index_invariant (size_body self) (fun _ st' => st' = st));
    [|reflexivity].
  intros i n st' ->. unfold size_body.
  destruct (Storage_key st i) as [key|e]; [|reflexivity].
  destruct (namespaced self key) as [k|]; [|reflexivity].
  now destruct (getItem st k) as [[[|c r]|]|].
Qed.

Lemma keys_loop_shrinks (st : Storage) :
  shrunk self st (after (loop (keys_body self now) [] st)).
Proof.
  unfold loop.
  apply (for_each_index_invariant (keys_body self now)
           (fun _ st' => shrunk self st st')); [|apply shrunk_refl].
  intros i acc st' H. unfold keys_body.
  destruct (Storage_key st' i) as [fullKey|e]; [|exact H].
  destruct (namespaced self fullKey) as [k|]; [|exact H].
  cbv zeta.
  assert (H' : shrunk self st
                 (store (has self now
                           (string_drop (String.length (namespace self)) k) st')))
    by (unfold has; cbn [store]; now apply get_shrinks).
  now destruct (ret (has self now _ st')).
Qed.

(** Every operation but [set] leaves the store it found, without some
    entries under the namespace. *)
Lemma perform_shrinks (c : call) (st : Storage) :
  is_set c = false -> shrunk self st (store (perform self now c st)).
Proof.
  destruct c as [key v options|key|key|key| | | | |key]; intros Hc;
    try discriminate; unfold perform, map_ret; cbn [store].
  - apply get_shrinks, shrunk_refl.
  - unfold has. cbn [store]. apply get_shrinks, shrunk_refl.
  - unfold remove.
    pose proof (shrunk_removeItem st st (getKey self key)
                  (startsWith_append _ _) (shrunk_refl st)) as H.
    destruct (removeItem st (getKey self key)); cbn [store];
      [exact H | apply shrunk_refl].
  - unfold clear.
    destruct (collecting_pass (clear_body self) st clear_body_collects)
      as [Hst Hks].
    destruct (raised (loop (clear_body self) [] st)); cbn [store];
      [rewrite Hst; apply shrunk_refl|].
    assert (H : shrunk self st
                  (after (remove_each (local (loop (clear_body self) [] st))
                            (after (loop (clear_body self) [] st)) O)))
      by (rewrite Hst; apply remove_each_shrinks;
          [exact Hks | apply shrunk_refl]).
    now destruct (raised (remove_each _ _ _)).
  - unfold keys. cbn [store]. apply keys_loop_shrinks.
  - unfold size. cbn [store]. rewrite size_loop_store. apply shrunk_refl.
  - unfold cleanup.
    destruct (collecting_pass (cleanup_body self now) st cleanup_body_collects)
      as [Hst Hks].
    destruct (raised (loop (cleanup_body self now) [] st)); cbn [store];
      [rewrite Hst; apply shrunk_refl|].
    assert (H : shrunk self st
                  (after (remove_each
                            (local (loop (cleanup_body self now) [] st))
                            (after (loop (cleanup_body self now) [] st)) O)))
      by (rewrite Hst; apply remove_each_shrinks;
          [exact Hks | apply shrunk_refl]).
    now destruct (raised (remove_each _ _ _)).
  - apply getInfo_shrinks, shrunk_refl.
Qed.

(** What a [set] leaves: the store it found, or that store with the one
    entry written. *)
Lemma set_store (key : string) (v : json) (options : SetOptions)
  (st : Storage) :
  store (set self now key v options st) = st \/
  store (set self now key v options st)
  = with_items st
      (update (getKey self key) (envelope self now v options) (items st)).
Proof.
  rewrite set_unfold. unfold setItem.
  destruct (available st); [|now left].
  destruct (usage _ <=? quota st)%nat; [now right | now left].
Qed.

End Frame.

(** What any operation does to the entries outside the namespace: the
    store keeps its handle, and those entries. *)
Lemma perform_frame (self : StoragePlus) (now : Z) (c : call) (st : Storage) :
  exists l',
    store (perform self now c st) = with_items st l' /\
    forall k, startsWith k (namespace self) = false ->
              lookup k l' = lookup k (items st).
Proof.
  destruct (is_set c) eqn:Hc.
  - destruct c as [key v options|key|key|key| | | | |key]; try discriminate.
    unfold perform, map_ret. cbn [store].
    destruct (set_store self now key v options st) as [-> | ->].
    + exists (items st). split; [symmetry; apply with_items_same | auto].
    + eexists. split; [reflexivity|]. intros k Hk.
      apply lookup_update_other.
      intros ->. unfold getKey in Hk. rewrite startsWith_append in Hk.
      discriminate.
  - destruct (perform_shrinks self now c st Hc) as (l' & -> & Hp).
    exists l'. split; [reflexivity|]. intros k Hk.
    destruct (Hp k) as [H | [_ H]]; [exact H | congruence].
Qed.

(** X18. No operation touches an entry whose full key does not start with
    the namespace prefix of the instance: whatever the call, the store
    afterwards answers [getItem] for such a key as it did before. *)
Theorem foreign_keys_untouched (self : StoragePlus) (now : Z) (c : call)
  (st : Storage) (k : string) :
  startsWith k (namespace self) = false ->
  getItem (store (perform self now c st)) k = getItem st k.
Proof.
  intros Hk. destruct (perform_frame self now c st) as (l' & -> & Hl').
  unfold getItem. cbn [available items with_items].
  now rewrite (Hl' k Hk).
Qed.

Lemma foreign_keys_untouched_witness :
  let app :=
    {| namespace := "app:"; defaultTTL := None; enableWarnings := true |} in
  let st :=
    {| items := [("app:a", "junk"); ("other:b", "junk")]; quota := 1000;
       available := true |} in
  startsWith "other:b" (namespace app) = false /\
  getItem (store (perform app 0 Call_clear st)) "other:b"
  = Ok (Some "junk").
Proof.
  intros app st.
  assert (Hk : startsWith "other:b" (namespace app) = false) by reflexivity.
  exact (conj Hk (foreign_keys_untouched app 0 Call_clear st "other:b" Hk)).
Defined.

(** X19. Only [set] writes.  After any other operation, every key of the
    store holds what it held or is gone: nothing is added and no text is
    altered. *)
Theorem only_set_writes (self : StoragePlus) (now : Z) (c : call)
  (st : Storage) :
  is_set c = false ->
  forall k,
    getItem (store (perform self now c st)) k = getItem st k \/
    getItem (store (perform self now c st)) k = Ok None.
Proof.
  intros Hc k. destruct (perform_shrinks self now c st Hc) as (l' & -> & Hp).
  unfold getItem. cbn [available items with_items].
  destruct (available st) eqn:Hav; [|now left].
  destruct (Hp k) as [-> | [-> _]]; [now left | now right].
Qed.

Lemma only_set_writes_witness :
  let app :=
    {| namespace := "app:"; defaultTTL := None; enableWarnings := true |} in
  let st :=
    {| items := [("app:a", "junk"); ("app:b", "more")]; quota := 1000;
       available := true |} in
  is_set (Call_get "a") = false /\
  (getItem (store (perform app 0 (Call_get "a") st)) "app:b" = getItem st "app:b"
   \/ getItem (store (perform app 0 (Call_get "a") st)) "app:b" = Ok None).
Proof.
  intros app st.
  assert (Hc : is_set (Call_get "a") = false) by reflexivity.
  exact (conj Hc (only_set_writes app 0 (Call_get "a") st Hc "app:b")).
Defined.

(** ** Two instances on one store *)

(** Two prefixes built from different names without a colon: no key under
    the one starts with the other. *)
Lemma startsWith_cons (a b : ascii) (s p : string) :
  startsWith (String b s) (String a p) = Ascii.eqb a b && startsWith s p.
Proof. reflexivity. Qed.

Lemma prefixes_apart (n1 n2 k : string) :
  has_colon n1 = false -> has_colon n2 = false -> n1 <> n2 ->
  startsWith ((n2 ++ ":") ++ k) (n1 ++ ":") = false.
Proof.
  revert n2. induction n1 as [|a n1 IH]; intros n2 H1 H2 Hne.
  - destruct n2 as [|b n2]; [congruence|]. cbn [has_colon] in H2.
    apply orb_false_iff in H2 as [Hb _].
    cbn [append]. rewrite startsWith_cons, Ascii.eqb_sym, Hb. reflexivity.
  - cbn [has_colon] in H1. apply orb_false_iff in H1 as [Ha H1].
    destruct n2 as [|b n2]; cbn [append]; rewrite startsWith_cons.
    + now rewrite Ha.
    + destruct (Ascii.eqb_spec a b) as [->|_]; [|reflexivity].
      cbn [andb]. cbn [has_colon] in H2.
      apply orb_false_iff in H2 as [_ H2].
      apply IH; [exact H1 | exact H2 | congruence].
Qed.

(** What [get] and [getInfo] return depends on the store through the one
    [getItem] they make. *)
Lemma get_ret_getItem (self : StoragePlus) (now : Z) (key : string)
  (st st2 : Storage) :
  getItem st (getKey self key) = getItem st2 (getKey self key) ->
  ret (get self now key st) = ret (get self now key st2).
Proof.
  intros H. unfold get. rewrite H.
  destruct (getItem st2 _) as [[data|]|e]; try reflexivity.
  destruct (parseStoredData data) as [item|].
  - destruct (isExpired now item); [|reflexivity].
    now destruct (removeItem st _), (removeItem st2 _).
  - now destruct (removeItem st _), (removeItem st2 _).
Qed.

Lemma getInfo_ret_getItem (self : StoragePlus) (now : Z) (key : string)
  (st st2 : Storage) :
  getItem st (getKey self key) = getItem st2 (getKey self key) ->
  ret (getInfo self now key st) = ret (getInfo self now key st2).
Proof.
  intros H. unfold getInfo. rewrite H.
  destruct (getItem st2 _) as [[data|]|e]; try reflexivity.
  destruct (parseStoredData data) as [item|]; [|reflexivity].
  destruct (isExpired now item); [|reflexivity].
  now destruct (removeItem st _), (removeItem st2 _).
Qed.

(** X20. Two instances on one store whose namespaces are different names
    without a colon do not see each other: whatever the one does, [get],
    [has] and [getInfo] of the other return what they returned before. *)
Theorem namespaces_isolate (a b : StoragePlus) (n1 n2 : string)
  (now t : Z) (c : call) (key : string) (st : Storage) :
  has_colon n1 = false -> has_colon n2 = false -> n1 <> n2 ->
  namespace a = (n1 ++ ":")%string ->
  namespace b = (n2 ++ ":")%string ->
  let st' := store (perform b now c st) in
  ret (get a t key st') = ret (get a t key st) /\
  ret (has a t key st') = ret (has a t key st) /\
  ret (getInfo a t key st') = ret (getInfo a t key st).
Proof.
  intros H1 H2 Hne Ha Hb st'.
  assert (Hget : getItem st' (getKey a key) = getItem st (getKey a key)).
  { unfold st'. destruct (perform_frame b now c st) as (l' & -> & Hl').
    unfold getItem. cbn [available items with_items].
    rewrite Hl'; [reflexivity|]. unfold getKey. rewrite Ha, Hb.
    apply prefixes_apart; [exact H2 | exact H1 | congruence]. }
  pose proof (get_ret_getItem a t key st' st Hget) as Hg.
  split; [exact Hg|]. split.
  - unfold has. cbn [ret]. now rewrite Hg.
  - now apply getInfo_ret_getItem.
Qed.

Lemma namespaces_isolate_witness :
  let user :=
    {| namespace := "user:"; defaultTTL := None; enableWarnings := true |} in
  let cart :=
    {| namespace := "cart:"; defaultTTL := None; enableWarnings := true |} in
  let st := store (set user 0 "name" (JStr "Ann") {| ttl := None |}
                     {| items := []; quota := 1000; available := true |}) in
  ret (get user 5 "name" (store (perform cart 1 Call_clear st)))
  = JStr "Ann".
Proof.
  intros user cart st.
  assert (Hne : "user"%string <> "cart"%string) by discriminate.
  exact (proj1 (namespaces_isolate user cart "user" "cart" 1 5 Call_clear
                  "name" st eq_refl eq_refl Hne eq_refl eq_refl)).
Defined.

(** ** More on [keys] *)

Lemma live_not_bad (now : Z) (data : string) :
  live now data = true ->
  is_none (parseStoredData data) || stale now data = false.
Proof.
  unfold live, stale. destruct (parseStoredData data) as [item|];
    [|discriminate].
  now destruct (isExpired now item).
Qed.

Lemma has_live (self : StoragePlus) (now : Z) (key : string) (st : Storage) :
  available st = true ->
  names_live self now (items st) key ->
  has self now key st = Out true st [].
Proof.
  intros Hav (data & Hlook & Hlive). unfold has.
  rewrite (get_available self now key st Hav). unfold getKey.
  rewrite Hlook, (live_not_bad now data Hlive).
  unfold live in Hlive. destruct (parseStoredData data) as [item|];
    [|discriminate].
  apply andb_true_iff in Hlive as [_ Hv]. cbn [ret store warned].
  now rewrite Hv.
Qed.

(** X21. Every key that [keys] returns passes [has] on the store that
    [keys] leaves, and that [has] changes nothing. *)
Theorem listed_keys_pass_has (self : StoragePlus) (now : Z) (st : Storage) :
  Forall (fun key =>
            has self now key (store (keys self now st))
            = Out true (store (keys self now st)) [])
    (ret (keys self now st)).
Proof.
  destruct (available st) eqn:Hav.
  - assert (H : available (store (keys self now st)) = true /\
                Forall (names_live self now (items (store (keys self now st))))
                  (ret (keys self now st))).
    { unfold keys, loop. cbn [ret store].
      apply (for_each_index_invariant (keys_body self now)
               (fun acc st' =>
                  available st' = true /\
                  Forall (names_live self now (items st')) acc));
        [|split; [exact Hav | constructor]].
      intros i acc st' [Hav' Hacc]. unfold keys_body.
      destruct (Storage_key st' i) as [fullKey|e]; [|now split].
      destruct (namespaced self fullKey) as [k|]; [|now split].
      set (key := string_drop (String.length (namespace self)) k).
      destruct (ret (has self now key st')) eqn:Hhas; cbn [local after].
      - destruct (has_true self now key st' Hhas) as [Hlive ->].
        split; [exact Hav'|]. apply Forall_app. split; [exact Hacc|].
        constructor; [exact Hlive | constructor].
      - unfold has. cbn [store].
        rewrite (get_available self now key st' Hav').
        destruct (lookup (getKey self key) (items st')) as [data|] eqn:Hlook;
          [|now split].
        destruct (is_none (parseStoredData data) || stale now data) eqn:E;
          [|now split].
        cbn [store]. split; [exact Hav'|].
        eapply Forall_impl; [|exact Hacc].
        intros key0 (data0 & Hlook0 & Hlive0). exists data0.
        split; [|exact Hlive0]. cbn [items with_items].
        rewrite lookup_delete_other; [exact Hlook0|].
        intros Heq. rewrite Heq in Hlook0.
        assert (data0 = data) as -> by congruence.
        rewrite (live_not_bad now data Hlive0) in E. discriminate. }
    destruct H as [Hav' Hlive].
    eapply Forall_impl; [|exact Hlive].
    intros key Hkey. now apply has_live.
  - unfold keys. rewrite (loop_unavailable _ _ _ Hav). cbn [ret local].
    constructor.
Qed.

(** X22. An entry that some other code wrote with [value] and
    [createdAt] but no [expiresAt] is accepted and never expires: at any
    time [get] returns its payload and leaves the store as it is. *)
Theorem no_expiresAt_never_expires (self : StoragePlus) (now : Z)
  (key data : string) (item : json) (st : Storage) :
  available st = true ->
  lookup (getKey self key) (items st) = Some data ->
  parseStoredData data = Some item ->
  get_prop "expiresAt" item = None ->
  get self now key st = Out (item_value item) st [].
Proof.
  intros Hav Hlook Hparse Hno.
  rewrite (get_available self now key st Hav), Hlook.
  unfold stale. rewrite Hparse.
  rewrite (isExpired_absent now item (or_introl Hno)). reflexivity.
Qed.

Lemma no_expiresAt_never_expires_witness :
  let app :=
    {| namespace := "app:"; defaultTTL := None; enableWarnings := true |} in
  let data :=
    ("{" ++ JSON.quote "value" ++ ":7," ++ JSON.quote "createdAt" ++ ":1}")%string
  in
  let st :=
    {| items := [("app:n", data)]; quota := 1000; available := true |} in
  get app 1000000 "n" st = Out (JNum 7) st [].
Proof.
  intros app data st.
  exact (no_expiresAt_never_expires app 1000000 "n" data
           (JObj [("value"%string, JNum 7); ("createdAt"%string, JNum 1)]) st
           eq_refl eq_refl eq_refl eq_refl).
Defined.

